(** * poke-portal: the data-access and caching layer of [pokemonData.tsx]

    A shallow embedding of the transport cache ([cacheKey], [getCached]),
    the domain mapper ([extractSprite], [mapTypes], [mapAbilities],
    [mapStats], [extractEnglishFlavor], [mapToSummary], [mapToDetail]) and
    the aggregate store ([loadList], [getSummary], [getDetail]) of
    [src/poke-portal/src/pokemonData.tsx].

    Conventions of the embedding:
    - a JS [number] that the code only uses as an integer (ids, slots,
      counts, millisecond timestamps) is a [Z]; where the text of a
      number matters it is assumed to be a [safe_integer];
    - an object is the list of its properties in the order of their
      creation, and [own_property_order] is the order in which they are
      enumerated;
    - [string | null], an optional property [f?:] and [undefined] are all
      [option]; optional chaining [a?.b] is bind and [a ?? b] is
      [nullish];
    - a JS string is a [string] of 8-bit code units;
    - the module-level [Map] used as cache is a [gmap string _], the
      [Record<number, _>] indexes of the provider are [gmap Z _];
    - an [async] function is a state transformer over the [World] (cache,
      clock, log of issued requests) that returns [inl] on fulfilment and
      [inr] on rejection;
    - a function object built by [useCallback] takes what its closure
      has captured as an argument of its own, apart from the store that
      its setters work on. *)

From Stdlib Require Import ZArith Ascii String List Sorted Permutation Lia.
From Stdlib Require Import DecimalString DecimalZ DecimalPos.
From stdpp Require Import base option list gmap strings sorting.

Local Open Scope string_scope.
Local Open Scope Z_scope.

#[local] Set Warnings "-register-all".

(** ** Raw catalogue records (the exported interfaces) *)

Record NamedAPIResource := {
  res_name : string;
  res_url : string;
}.

Record SpriteDefault := {
  front_default : option string;
}.

Record SpriteHome := {
  home_front_default : option string;
  home_front_shiny : option string;
}.

Record PokemonSpritesOther := {
  dream_world : option SpriteDefault;
  home : option SpriteHome;
  official_artwork : option SpriteDefault;
}.

Record PokemonSprites := {
  sprites_front_default : option string;
  sprites_front_shiny : option string;
  other : option PokemonSpritesOther;
}.

Record PokemonTypeSlot := {
  ts_slot : Z;
  ts_type : NamedAPIResource;
}.

Record PokemonAbilitySlot := {
  as_ability : NamedAPIResource;
  as_is_hidden : bool;
  as_slot : Z;
}.

Record PokemonStatSlot := {
  ss_base_stat : Z;
  ss_effort : Z;
  ss_stat : NamedAPIResource;
}.

Record VersionGroupDetail := {
  level_learned_at : Z;
  move_learn_method : NamedAPIResource;
  version_group : NamedAPIResource;
}.

Record PokemonMoveSlot := {
  ms_move : NamedAPIResource;
  version_group_details : list VersionGroupDetail;
}.

Record Pokemon := {
  p_id : Z;
  p_name : string;
  p_height : Z;
  p_weight : Z;
  p_order : Z;
  p_base_experience : Z;
  p_sprites : PokemonSprites;
  p_types : list PokemonTypeSlot;
  p_abilities : list PokemonAbilitySlot;
  p_stats : list PokemonStatSlot;
  p_moves : list PokemonMoveSlot;
  p_species : NamedAPIResource;
}.

Record PokemonSpeciesFlavorText := {
  flavor_text : string;
  ft_language : NamedAPIResource;
  ft_version : NamedAPIResource;
}.

Record PokemonSpeciesGenus := {
  genus : string;
  g_language : NamedAPIResource;
}.

Record PokemonSpecies := {
  sp_id : Z;
  sp_name : string;
  sp_color : option NamedAPIResource;
  sp_habitat : option NamedAPIResource;
  sp_genera : option (list PokemonSpeciesGenus);
  flavor_text_entries : list PokemonSpeciesFlavorText;
  is_legendary : bool;
  is_mythical : bool;
  evolution_chain : option string;
}.

Record PokemonListResponse := {
  lr_count : Z;
  lr_next : option string;
  lr_previous : option string;
  lr_results : list NamedAPIResource;
}.

(** ** View models *)

Record PokemonSummary := {
  s_id : Z;
  s_name : string;
  s_sprite : option string;
  s_types : list string;
}.

Record AbilityView := {
  av_name : string;
  av_isHidden : bool;
}.

Record StatView := {
  sv_name : string;
  sv_value : Z;
}.

(** [PokemonDetail extends PokemonSummary]: the inherited fields are the
    embedded [d_summary]. *)
Record PokemonDetail := {
  d_summary : PokemonSummary;
  d_height : Z;
  d_weight : Z;
  d_baseExperience : Z;
  d_abilities : list AbilityView;
  d_stats : list StatView;
  d_flavorText : option string;
  d_habitat : option string;
  d_genus : option string;
  d_isLegendary : bool;
  d_isMythical : bool;
}.

Definition d_id (d : PokemonDetail) : Z := s_id (d_summary d).
Definition d_name (d : PokemonDetail) : string := s_name (d_summary d).
Definition d_sprite (d : PokemonDetail) : option string := s_sprite (d_summary d).
Definition d_types (d : PokemonDetail) : list string := s_types (d_summary d).

(** ** Domain mapper *)

(** [a ?? b] *)
Definition nullish {A} (a b : option A) : option A :=
  match a with
  | Some x => Some x
  | None => b
  end.

Definition extractSprite (pokemon : Pokemon) : option string :=
  nullish ((other (p_sprites pokemon) ≫= official_artwork) ≫= front_default)
 (nullish ((other (p_sprites pokemon) ≫= home) ≫= home_front_default)
 (nullish ((other (p_sprites pokemon) ≫= dream_world) ≫= front_default)
 (nullish (sprites_front_default (p_sprites pokemon))
          None))).

(** [Array.prototype.sort] with a comparator.  The sort is stable
    (ECMAScript 2019), so for a consistent comparator its result is the
    one stable ordering of the input, which insertion from the right
    computes: an element is placed before the first element it does not
    compare greater than. *)
Fixpoint insert_by {A} (cmp : A → A → Z) (x : A) (l : list A) : list A :=
  match l with
  | [] => [x]
  | y :: l' => if cmp x y <=? 0 then x :: y :: l' else y :: insert_by cmp x l'
  end.

Definition array_sort {A} (cmp : A → A → Z) (l : list A) : list A :=
  foldr (insert_by cmp) [] l.

Definition mapTypes (types : list PokemonTypeSlot) : list string :=
  map (λ entry, res_name (ts_type entry))
      (array_sort (λ a b, ts_slot a - ts_slot b) types).

Definition mapAbilities (abilities : list PokemonAbilitySlot) : list AbilityView :=
  map (λ entry, {| av_name := res_name (as_ability entry);
                   av_isHidden := as_is_hidden entry |})
      (array_sort (λ a b, as_slot a - as_slot b) abilities).

Definition mapStats (stats : list PokemonStatSlot) : list StatView :=
  map (λ entry, {| sv_name := res_name (ss_stat entry);
                   sv_value := ss_base_stat entry |}) stats.

Definition form_feed : ascii := ascii_of_nat 12.
Definition line_feed : ascii := ascii_of_nat 10.
Definition carriage_return : ascii := ascii_of_nat 13.

(** The alternation [/\f|\n|\r/] matches exactly one of three characters. *)
Definition is_flavor_break (c : ascii) : bool :=
  Ascii.eqb c form_feed || Ascii.eqb c line_feed || Ascii.eqb c carriage_return.

(** [text.replace(/\f|\n|\r/g, ' ')] *)
Fixpoint replace_breaks (text : string) : string :=
  match text with
  | EmptyString => EmptyString
  | String c rest =>
      String (if is_flavor_break c then " "%char else c) (replace_breaks rest)
  end.

Definition sanitizeFlavorText (text : option string) : option string :=
  replace_breaks <$> text.

Definition extractEnglishFlavor (species : PokemonSpecies) : option string :=
  sanitizeFlavorText
    (flavor_text <$>
       find (λ entry, String.eqb (res_name (ft_language entry)) "en")
            (flavor_text_entries species)).

Definition extractGenus (species : PokemonSpecies) : option string :=
  sp_genera species ≫= λ genera,
    genus <$> find (λ entry, String.eqb (res_name (g_language entry)) "en") genera.

Definition mapToSummary (pokemon : Pokemon) : PokemonSummary := {|
  s_id := p_id pokemon;
  s_name := p_name pokemon;
  s_sprite := extractSprite pokemon;
  s_types := mapTypes (p_types pokemon);
|}.

Definition mapToDetail (pokemon : Pokemon) (species : PokemonSpecies) : PokemonDetail := {|
  d_summary := mapToSummary pokemon;
  d_height := p_height pokemon;
  d_weight := p_weight pokemon;
  d_baseExperience := p_base_experience pokemon;
  d_abilities := mapAbilities (p_abilities pokemon);
  d_stats := mapStats (p_stats pokemon);
  d_flavorText := extractEnglishFlavor species;
  d_habitat := nullish (res_name <$> sp_habitat species) None;
  d_genus := nullish (extractGenus species) None;
  d_isLegendary := is_legendary species;
  d_isMythical := is_mythical species;
|}.

(** ** JSON serialisation of the cache key *)

(** The values [JSON.stringify] distinguishes.  An object is the list of
    its own enumerable properties, each key once, in the order in which
    the properties were created.  That is not the order in which the
    object is enumerated: see [own_property_order]. *)
Inductive JSValue :=
| JUndefined
| JNull
| JBool (b : bool)
| JNumber (n : Z)
| JString (s : string)
| JArray (items : list JSValue)
| JObject (props : list (string * JSValue)).

(** A parameter object ([Record<string, unknown>]): its properties in
    the order in which they were inserted. *)
Definition Params := list (string * JSValue).

Definition hex_digit (n : N) : ascii :=
  match n with
  | 0%N => "0" | 1%N => "1" | 2%N => "2" | 3%N => "3" | 4%N => "4"
  | 5%N => "5" | 6%N => "6" | 7%N => "7" | 8%N => "8" | 9%N => "9"
  | 10%N => "a" | 11%N => "b" | 12%N => "c" | 13%N => "d" | 14%N => "e"
  | _ => "f"
  end%char.

Definition backslash : ascii := ascii_of_nat 92.

Definition escape (rest : string) : string := String backslash rest.

(** One code unit of [QuoteJSONString]. *)
Definition quote_char (c : ascii) : string :=
  let n := N_of_ascii c in
  if (n =? 8)%N then escape "b"
  else if (n =? 9)%N then escape "t"
  else if (n =? 10)%N then escape "n"
  else if (n =? 12)%N then escape "f"
  else if (n =? 13)%N then escape "r"
  else if (n =? 34)%N then escape (String c EmptyString)
  else if (n =? 92)%N then escape (String c EmptyString)
  else if (n <? 32)%N then
    escape ("u00" ++ String (hex_digit (n / 16))
                       (String (hex_digit (n mod 16)) EmptyString))
  else String c EmptyString.

Fixpoint quote_body (s : string) : string :=
  match s with
  | EmptyString => EmptyString
  | String c rest => quote_char c ++ quote_body rest
  end.

Definition double_quote : string := String (ascii_of_nat 34) EmptyString.

Definition quote (s : string) : string :=
  double_quote ++ quote_body s ++ double_quote.

Definition MAX_SAFE_INTEGER : Z := 2 ^ 53 - 1.

(** [Number.isSafeInteger]: the integers that a JS number holds exactly
    and apart from its neighbours. *)
Definition safe_integer (n : Z) : Prop :=
  - MAX_SAFE_INTEGER ≤ n ≤ MAX_SAFE_INTEGER.

(** [Number::toString] of a safe integer: its decimal digits, after a
    minus sign when it is negative.  The text of a larger number is not
    this one (past [2^53] the digits are those of the nearest number
    value, and from [10^21] on the text is in exponent form), so every
    statement below that reads the digits of a number assumes
    [safe_integer]. *)
Definition number_to_string (n : Z) : string :=
  NilZero.string_of_int (Z.to_int n).

(** An array index: a key that is the canonical text of an integer from
    [0] to [2^32 - 2]. *)
Definition array_index (key : string) : option Z :=
  match NilZero.int_of_string key with
  | Some i =>
      let n := Z.of_int i in
      if (0 <=? n) && (n <? 2 ^ 32 - 1) && String.eqb (number_to_string n) key
      then Some n
      else None
  | None => None
  end.

(** [OrdinaryOwnPropertyKeys], the order in which [JSON.stringify] (as
    [Object.keys] and [for-in]) visits the properties of an object: the
    array indexes in ascending numeric order first, whatever the order
    they were created in, then the other keys in the order of their
    creation. *)
Definition own_property_order {A} (props : list (string * A)) : list (string * A) :=
  (array_sort (λ a b, default 0 (array_index a.1) - default 0 (array_index b.1))
     (filter (λ kv, is_Some (array_index kv.1)) props)
   ++ filter (λ kv, array_index kv.1 = None) props)%list.

Fixpoint join (sep : string) (parts : list string) : string :=
  match parts with
  | [] => EmptyString
  | [p] => p
  | p :: rest => p ++ sep ++ join sep rest
  end.

(** The members of [SerializeJSONObject], each a key and the text of
    its value: a property whose value does not serialise (it is
    [undefined]) is left out. *)
Fixpoint members (ser : JSValue → option string) (props : list (string * JSValue))
  : list (string * string) :=
  match props with
  | [] => []
  | (k, v) :: rest =>
      match ser v with
      | Some s => (k, s) :: members ser rest
      | None => members ser rest
      end
  end.

Definition member_text (member : string * string) : string :=
  quote member.1 ++ ":" ++ member.2.

(** [SerializeJSONObject]: the members in the order of enumeration,
    which depends on the keys only. *)
Definition stringify_object (ser : JSValue → option string)
    (props : list (string * JSValue)) : string :=
  "{" ++ join "," (map member_text (own_property_order (members ser props))) ++ "}".

(** [SerializeJSONProperty]: [None] is the [undefined] result. *)
Fixpoint serialize (v : JSValue) : option string :=
  match v with
  | JUndefined => None
  | JNull => Some "null"
  | JBool b => Some (if b then "true" else "false")
  | JNumber n => Some (number_to_string n)
  | JString s => Some (quote s)
  | JArray items =>
      Some ("[" ++ join "," (map (λ item, default "null" (serialize item)) items) ++ "]")
  | JObject props => Some (stringify_object serialize props)
  end.

(** [JSON.stringify({ url, params })]: an absent [params] is the property
    [params: undefined]. *)
Definition cacheKey (url : string) (params : option Params) : string :=
  stringify_object serialize
    [("url", JString url); ("params", from_option JObject JUndefined params)].

Definition list_params (limit offset : Z) : Params :=
  [("limit", JNumber limit); ("offset", JNumber offset)].

(** ** Transport and cache *)

(** The kinds of value whose properties the code reads without a check:
    the three documents of the service, and a member of the list. *)
Inductive Shape :=
| ListShape
| PokemonShape
| SpeciesShape
| SummaryShape.

(** What a rejected promise carries, as far as [extractErrorMessage] can
    tell: an [Error] instance with its message (axios rejects with one on
    a transport failure, a timeout and a non-2xx status); the [TypeError]
    that the engine throws when a property is read from [undefined]
    because a value is not of the shape expected, which is an [Error]
    instance too, with a message that is the engine's own; a thrown
    string; or anything else. *)
Inductive JSError :=
| ErrorObject (message : string)
| TypeErrorObject (expected : Shape)
| ThrownString (s : string)
| ThrownOther.

Definition Result (A : Type) : Type := A + JSError.

Definition result_bind {A B} (r : Result A) (f : A → Result B) : Result B :=
  match r with
  | inl a => f a
  | inr e => inr e
  end.

Definition result_map {A B} (f : A → B) (r : Result A) : Result B :=
  result_bind r (λ a, inl (f a)).

Record Request := {
  req_url : string;
  req_params : option Params;
}.

Record CacheEntry (Data : Type) := {
  timestamp : Z;
  data : Data;
}.
Arguments timestamp {Data} _.
Arguments data {Data} _.

(** The answer of the upstream service to one [apiClient.get]: how long
    it takes and how the promise settles. *)
Record Reply (Data : Type) := {
  latency : N;
  outcome : Result Data;
}.
Arguments latency {Data} _.
Arguments outcome {Data} _.

(** The service, asked at a given instant. *)
Definition Network (Data : Type) : Type := Z → Request → Reply Data.

(** The mutable surroundings of the module: the [cache] table, the
    reading of [Date.now()], and the requests handed to [apiClient.get]
    so far, oldest first. *)
Record World (Data : Type) := {
  cache : gmap string (CacheEntry Data);
  clock : Z;
  sent : list Request;
}.
Arguments cache {Data} _.
Arguments clock {Data} _.
Arguments sent {Data} _.

Definition DEFAULT_TTL : Z := 1000 * 60 * 5.

Section Transport.
Context {Data : Type}.
Variable net : Network Data.

(** [cached && Date.now() - cached.timestamp < ttl], giving
    [cached.data]. *)
Definition fresh_entry (ttl : Z) (key : string) (w : World Data) : option Data :=
  match cache w !! key with
  | Some cached =>
      if clock w - timestamp cached <? ttl then Some (data cached) else None
  | None => None
  end.

(** Lines 42-44: the request, and the [cache.set] that only runs when
    the awaited promise fulfils.  [Date.now()] is read again after the
    await. *)
Definition request_and_store (key : string) (req : Request) (w : World Data)
  : Result Data * World Data :=
  let reply := net (clock w) req in
  let arrival := clock w + Z.of_N (latency reply) in
  match outcome reply with
  | inl payload =>
      (inl payload,
       {| cache := <[key := {| timestamp := arrival; data := payload |}]> (cache w);
          clock := arrival;
          sent := sent w ++ [req] |})
  | inr e =>
      (inr e, {| cache := cache w; clock := arrival; sent := sent w ++ [req] |})
  end.

Definition getCached (url : string) (params : option Params) (ttl : option Z)
    (w : World Data) : Result Data * World Data :=
  let ttl := default DEFAULT_TTL ttl in
  let key := cacheKey url params in
  match fresh_entry ttl key w with
  | Some payload => (inl payload, w)
  | None => request_and_store key {| req_url := url; req_params := params |} w
  end.

(** *** Calls started together

    [Promise.all] over calls of [getCached] that were all started in one
    synchronous stretch: every call reads the cache and the clock
    before any response arrives, every miss puts its own request on the
    wire, and the responses are then handled in the order they arrive. *)
Inductive Flight :=
| Cached (payload : Data)
| OnWire (key : string) (req : Request) (reply : Reply Data).

Definition take_off (ttl : option Z) (w : World Data)
    (call : string * option Params) : Flight :=
  let key := cacheKey call.1 call.2 in
  let req := {| req_url := call.1; req_params := call.2 |} in
  match fresh_entry (default DEFAULT_TTL ttl) key w with
  | Some payload => Cached payload
  | None => OnWire key req (net (clock w) req)
  end.

Definition flight_request (f : Flight) : option Request :=
  match f with
  | Cached _ => None
  | OnWire _ req _ => Some req
  end.

Definition landing_time (t0 : Z) (f : Flight) : Z :=
  match f with
  | Cached _ => t0
  | OnWire _ _ reply => t0 + Z.of_N (latency reply)
  end.

Definition flight_outcome (f : Flight) : Result Data :=
  match f with
  | Cached payload => inl payload
  | OnWire _ _ reply => outcome reply
  end.

(** The [cache.set] of a flight that fulfilled. *)
Definition flight_write (t0 : Z) (f : Flight) : option (Z * string * Data) :=
  match f with
  | OnWire key _ reply =>
      match outcome reply with
      | inl payload => Some (t0 + Z.of_N (latency reply), key, payload)
      | inr _ => None
      end
  | Cached _ => None
  end.

Definition apply_write (m : gmap string (CacheEntry Data))
    (wr : Z * string * Data) : gmap string (CacheEntry Data) :=
  <[wr.1.2 := {| timestamp := wr.1.1; data := wr.2 |}]> m.

(** The world once every flight has landed.  The source never cancels
    a request, so a response that arrives after [Promise.all] has
    already rejected still writes the cache. *)
Definition land_all (flights : list Flight) (w : World Data) : World Data :=
  let t0 := clock w in
  {| cache :=
       foldl apply_write (cache w)
         (array_sort (λ a b, a.1.1 - b.1.1) (omap (flight_write t0) flights));
     clock := foldr Z.max t0 (map (landing_time t0) flights);
     sent := sent w ++ omap flight_request flights |}.
End Transport.

(** A settled promise and the instant it settled. *)
Record Settled (A : Type) := {
  settled_at : Z;
  settlement : Result A;
}.
Arguments settled_at {A} _.
Arguments settlement {A} _.

Definition rejection {A} (s : Settled A) : option (Z * JSError) :=
  match settlement s with
  | inl _ => None
  | inr e => Some (settled_at s, e)
  end.

Definition fulfilment {A} (s : Settled A) : option A :=
  match settlement s with
  | inl a => Some a
  | inr _ => None
  end.

(** [Promise.all]: rejects with the reason of the promise that rejects
    first, and otherwise fulfils with the values in the order of the
    input. *)
Definition promise_all {A} (promises : list (Settled A)) : Result (list A) :=
  match array_sort (λ a b, a.1 - b.1) (omap rejection promises) with
  | first :: _ => inr first.2
  | [] => inl (omap fulfilment promises)
  end.

(** [await inner] followed by a synchronous continuation that may throw. *)
Definition settled_then {A B} (f : A → Result B) (s : Settled A) : Settled B :=
  {| settled_at := settled_at s; settlement := result_bind (settlement s) f |}.

Definition settle {Data} (t0 : Z) (f : @Flight Data) : Settled Data :=
  {| settled_at := landing_time t0 f; settlement := flight_outcome f |}.

(** ** Typed fetchers *)

(** The three shapes of document the service returns.  The cache holds
    them side by side ([CacheEntry<unknown>]). *)
Inductive Payload :=
| ListPayload (response : PokemonListResponse)
| PokemonPayload (pokemon : Pokemon)
| SpeciesPayload (species : PokemonSpecies).

(** [getCached<T>] does not check that a payload is a [T].  A document of
    another shape used as a [T] lacks the property the code reads first
    and then reads from: [response.results.map] of a list response,
    [pokemon.sprites.other] of an item, [species.flavor_text_entries.find]
    of a species.  That second read throws a [TypeError]. *)
Definition as_list (payload : Payload) : Result PokemonListResponse :=
  match payload with
  | ListPayload response => inl response
  | _ => inr (TypeErrorObject ListShape)
  end.

Definition as_pokemon (payload : Payload) : Result Pokemon :=
  match payload with
  | PokemonPayload pokemon => inl pokemon
  | _ => inr (TypeErrorObject PokemonShape)
  end.

Definition as_species (payload : Payload) : Result PokemonSpecies :=
  match payload with
  | SpeciesPayload species => inl species
  | _ => inr (TypeErrorObject SpeciesShape)
  end.

Inductive NameOrId :=
| ByName (name : string)
| ById (id : Z).

(** The conversion done by the template literal. *)
Definition name_or_id_string (nameOrId : NameOrId) : string :=
  match nameOrId with
  | ByName name => name
  | ById id => number_to_string id
  end.

Definition list_call (limit offset : option Z) : string * option Params :=
  ("/pokemon", Some (list_params (default 1000 limit) (default 0 offset))).

Definition pokemon_call (nameOrId : NameOrId) : string * option Params :=
  ("/pokemon/" ++ name_or_id_string nameOrId, None).

Definition species_call (nameOrId : NameOrId) : string * option Params :=
  ("/pokemon-species/" ++ name_or_id_string nameOrId, None).

Section Fetchers.
Variable net : Network Payload.

Definition fetchPokemonList (limit offset : option Z) (w : World Payload)
  : Result Payload * World Payload :=
  getCached net (list_call limit offset).1 (list_call limit offset).2 None w.

Definition fetchPokemonByNameOrId (nameOrId : NameOrId) (w : World Payload)
  : Result Payload * World Payload :=
  getCached net (pokemon_call nameOrId).1 (pokemon_call nameOrId).2 None w.

Definition fetchPokemonSpeciesByNameOrId (nameOrId : NameOrId) (w : World Payload)
  : Result Payload * World Payload :=
  getCached net (species_call nameOrId).1 (species_call nameOrId).2 None w.

Definition summary_of_payload (payload : Payload) : Result PokemonSummary :=
  result_map mapToSummary (as_pokemon payload).

Definition fetchPokemonSummary (nameOrId : NameOrId) (w : World Payload)
  : Result PokemonSummary * World Payload :=
  let '(pokemon, w') := fetchPokemonByNameOrId nameOrId w in
  (result_bind pokemon summary_of_payload, w').

(** [Promise.all] of two promises of different types. *)
Definition promise_all2 {A B} (a : Settled A) (b : Settled B) : Result (A * B) :=
  match settlement a, settlement b with
  | inl x, inl y => inl (x, y)
  | inr e, inl _ => inr e
  | inl _, inr e => inr e
  | inr ea, inr eb => if settled_at b <? settled_at a then inr eb else inr ea
  end.

Definition fetchPokemonDetail (nameOrId : NameOrId) (w : World Payload)
  : Result PokemonDetail * World Payload :=
  let pokemon := take_off net None w (pokemon_call nameOrId) in
  let species := take_off net None w (species_call nameOrId) in
  (result_bind (promise_all2 (settle (clock w) pokemon) (settle (clock w) species))
     (λ both,
        result_bind (as_pokemon both.1) (λ pokemon,
        result_bind (as_species both.2) (λ species,
        inl (mapToDetail pokemon species)))),
   land_all [pokemon; species] w).

(** [Promise.all(response.results.map((result) =>
    fetchPokemonSummary(result.name)))] *)
Definition fetchPokemonSummaries (results : list NamedAPIResource) (w : World Payload)
  : Result (list PokemonSummary) * World Payload :=
  let flights :=
    map (λ result, take_off net None w (pokemon_call (ByName (res_name result))))
        results in
  (promise_all (map (λ f, settled_then summary_of_payload (settle (clock w) f)) flights),
   land_all flights w).
End Fetchers.

(** ** Aggregate store *)

Record ListParams := {
  limit : Z;
  offset : Z;
}.

(** A value of [summariesById]: [getDetail] stores the detail object
    itself there, which is a summary by structural subtyping. *)
Inductive SummaryEntry :=
| PlainSummary (summary : PokemonSummary)
| DetailAsSummary (detail : PokemonDetail).

Definition as_summary (entry : SummaryEntry) : PokemonSummary :=
  match entry with
  | PlainSummary summary => summary
  | DetailAsSummary detail => d_summary detail
  end.

(** The seven [useState] cells of [PokemonProvider] ([pokemonList] is the
    cell named [list]). *)
Record Store := {
  pokemonList : list PokemonSummary;
  totalCount : Z;
  isListLoading : bool;
  listError : option string;
  listParams : ListParams;
  summariesById : gmap Z SummaryEntry;
  detailsById : gmap Z PokemonDetail;
}.

Definition initial_store : Store := {|
  pokemonList := [];
  totalCount := 0;
  isListLoading := false;
  listError := None;
  listParams := {| limit := 1000; offset := 0 |};
  summariesById := ∅;
  detailsById := ∅;
|}.

Definition setList (v : list PokemonSummary) (st : Store) : Store :=
  {| pokemonList := v; totalCount := totalCount st;
     isListLoading := isListLoading st; listError := listError st;
     listParams := listParams st; summariesById := summariesById st;
     detailsById := detailsById st |}.

Definition setTotalCount (v : Z) (st : Store) : Store :=
  {| pokemonList := pokemonList st; totalCount := v;
     isListLoading := isListLoading st; listError := listError st;
     listParams := listParams st; summariesById := summariesById st;
     detailsById := detailsById st |}.

Definition setIsListLoading (v : bool) (st : Store) : Store :=
  {| pokemonList := pokemonList st; totalCount := totalCount st;
     isListLoading := v; listError := listError st;
     listParams := listParams st; summariesById := summariesById st;
     detailsById := detailsById st |}.

Definition setListError (v : option string) (st : Store) : Store :=
  {| pokemonList := pokemonList st; totalCount := totalCount st;
     isListLoading := isListLoading st; listError := v;
     listParams := listParams st; summariesById := summariesById st;
     detailsById := detailsById st |}.

Definition setListParams (v : ListParams) (st : Store) : Store :=
  {| pokemonList := pokemonList st; totalCount := totalCount st;
     isListLoading := isListLoading st; listError := listError st;
     listParams := v; summariesById := summariesById st;
     detailsById := detailsById st |}.

(** The setters of the two indexes are only called with an updater
    function [(prev) => next]. *)
Definition setSummariesById (f : gmap Z SummaryEntry → gmap Z SummaryEntry)
    (st : Store) : Store :=
  {| pokemonList := pokemonList st; totalCount := totalCount st;
     isListLoading := isListLoading st; listError := listError st;
     listParams := listParams st; summariesById := f (summariesById st);
     detailsById := detailsById st |}.

Definition setDetailsById (f : gmap Z PokemonDetail → gmap Z PokemonDetail)
    (st : Store) : Store :=
  {| pokemonList := pokemonList st; totalCount := totalCount st;
     isListLoading := isListLoading st; listError := listError st;
     listParams := listParams st; summariesById := summariesById st;
     detailsById := f (detailsById st) |}.

Definition e_acute : ascii := ascii_of_nat 233.

(** [type_error_message] is the message the engine gives the
    [TypeError] it throws for a value that is not of the expected
    shape. *)
Definition extractErrorMessage (type_error_message : Shape → string)
    (error : JSError) : string :=
  match error with
  | ErrorObject message => message
  | TypeErrorObject expected => type_error_message expected
  | ThrownString s => s
  | ThrownOther =>
      "Something went wrong while talking to Pok" ++ String e_acute "API."
  end.

(** What one call of a store operation did: the value its promise
    settled with, the store after each setter call in the order the
    setters ran, and the world it left. *)
Record Run (A : Type) := {
  returned : A;
  commits : list Store;
  world : World Payload;
}.
Arguments returned {A} _.
Arguments commits {A} _.
Arguments world {A} _.

(** The store a later render sees. *)
Definition store_after {A} (st : Store) (r : Run A) : Store :=
  default st (last (commits r)).

Section AggregateStore.
Variable type_error_message : Shape → string.
Variable net : Network Payload.

(** The body of the [try] block up to the first setter. *)
Definition load_page (limit offset : Z) (w : World Payload)
  : Result (PokemonListResponse * list PokemonSummary) * World Payload :=
  let '(payload, w1) := fetchPokemonList net (Some limit) (Some offset) w in
  match result_bind payload as_list with
  | inl response =>
      let '(summaries, w2) := fetchPokemonSummaries net (lr_results response) w1 in
      (result_map (λ summaries, (response, summaries)) summaries, w2)
  | inr e => (inr e, w1)
  end.

Definition index_summaries (summaries : list PokemonSummary)
    (prev : gmap Z SummaryEntry) : gmap Z SummaryEntry :=
  foldl (λ next summary, <[s_id summary := PlainSummary summary]> next) prev summaries.

(** One function object of [loadList].  [captured] is the [list] of the
    render that built it, which is what its guard reads; the setters
    work on the store as it is when they run, [st]. *)
Definition loadList (captured : list PokemonSummary) (limit offset : option Z)
    (st : Store) (w : World Payload) : Run unit :=
  let limit := default 1000 limit in
  let offset := default 0 offset in
  if 0 <? Z.of_nat (length captured) then
    {| returned := (); commits := []; world := w |}
  else
    let st1 := setIsListLoading true st in
    let st2 := setListError None st1 in
    let st3 := setListParams {| limit := limit; offset := offset |} st2 in
    let '(page, w') := load_page limit offset w in
    let body :=
      match page with
      | inl (response, summaries) =>
          let st4 := setList summaries st3 in
          let st5 := setTotalCount (lr_count response) st4 in
          let st6 := setSummariesById (index_summaries summaries) st5 in
          [st4; st5; st6]
      | inr error =>
          [setListError (Some (extractErrorMessage type_error_message error)) st3]
      end in
    {| returned := ();
       commits := [st1; st2; st3] ++ body
                  ++ [setIsListLoading false (default st3 (last body))];
       world := w' |}.

Definition getSummary (idOrName : NameOrId) (st : Store) (w : World Payload)
  : Run (Result PokemonSummary) :=
  let '(summary, w') := fetchPokemonSummary net idOrName w in
  {| returned := summary;
     commits :=
       match summary with
       | inl summary =>
           [setSummariesById (λ prev, <[s_id summary := PlainSummary summary]> prev) st]
       | inr _ => []
       end;
     world := w' |}.

Definition getDetail (idOrName : NameOrId) (st : Store) (w : World Payload)
  : Run (Result PokemonDetail) :=
  let '(detail, w') := fetchPokemonDetail net idOrName w in
  {| returned := detail;
     commits :=
       match detail with
       | inl detail =>
           let st1 := setDetailsById (λ prev, <[d_id detail := detail]> prev) st in
           let st2 :=
             setSummariesById (λ prev, <[d_id detail := DetailAsSummary detail]> prev) st1 in
           [st1; st2]
       | inr _ => []
       end;
     world := w' |}.
End AggregateStore.

(** [useCallback(..., [list.length])]: a render hands out the function
    object of an earlier render as long as the list has the length it had
    then, and builds a new one otherwise.  So the list that the
    [loadList] of a render of [st] has captured has the length of the
    list of [st]; it need not be that list. *)
Definition handed_out_by (st : Store) (captured : list PokemonSummary) : Prop :=
  length captured = length (pokemonList st).

(** Time that passes between two calls while nothing else runs. *)
Definition elapse {Data} (dt : N) (w : World Data) : World Data :=
  {| cache := cache w; clock := clock w + Z.of_N dt; sent := sent w |}.

(** ** Reading a cache key back

    The inverse of [quote_char] on the front of a text.  It is used to
    show that a cache key determines the endpoint it was built from. *)

Definition hex_value (c : ascii) : N :=
  let n := N_of_ascii c in
  if (n <? 58)%N then n - 48 else n - 87.

Definition unquote_char (text : string) : option (ascii * string) :=
  match text with
  | EmptyString => None
  | String c rest =>
      if Ascii.eqb c (ascii_of_nat 34) then None
      else if Ascii.eqb c backslash then
        match rest with
        | EmptyString => None
        | String e rest =>
            if Ascii.eqb e "b" then Some (ascii_of_nat 8, rest)
            else if Ascii.eqb e "t" then Some (ascii_of_nat 9, rest)
            else if Ascii.eqb e "n" then Some (ascii_of_nat 10, rest)
            else if Ascii.eqb e "f" then Some (ascii_of_nat 12, rest)
            else if Ascii.eqb e "r" then Some (ascii_of_nat 13, rest)
            else if Ascii.eqb e "u" then
              match rest with
              | String _ (String _ (String high (String low rest))) =>
                  Some (ascii_of_N (16 * hex_value high + hex_value low), rest)
              | _ => None
              end
            else Some (e, rest)
        end
      else Some (c, rest)
  end.

(** [in_quotes "url"] is the five characters of the JSON string for
    [url]. *)
Definition in_quotes (s : string) : string := double_quote ++ s ++ double_quote.

(** ** The sprite precedence of the specification

    The four candidate URLs in the order the specification gives them,
    and the first one of them that is present. *)

Definition official_artwork_url (item : Pokemon) : option string :=
  match other (p_sprites item) with
  | Some others =>
      match official_artwork others with
      | Some artwork => front_default artwork
      | None => None
      end
  | None => None
  end.

Definition home_url (item : Pokemon) : option string :=
  match other (p_sprites item) with
  | Some others =>
      match home others with
      | Some h => home_front_default h
      | None => None
      end
  | None => None
  end.

Definition dream_world_url (item : Pokemon) : option string :=
  match other (p_sprites item) with
  | Some others =>
      match dream_world others with
      | Some dream => front_default dream
      | None => None
      end
  | None => None
  end.

Definition own_default_url (item : Pokemon) : option string :=
  sprites_front_default (p_sprites item).

Fixpoint first_present {A} (candidates : list (option A)) : option A :=
  match candidates with
  | [] => None
  | Some url :: _ => Some url
  | None :: rest => first_present rest
  end.

Definition sprite_by_precedence (item : Pokemon) : option string :=
  first_present
    [official_artwork_url item; home_url item; dream_world_url item;
     own_default_url item].

(** ** Sample records *)

Definition resource (name : string) : NamedAPIResource :=
  {| res_name := name; res_url := "https://pokeapi.co/api/v2/" ++ name |}.

Definition sprites_all : PokemonSprites := {|
  sprites_front_default := Some "default.png";
  sprites_front_shiny := None;
  other := Some {|
    dream_world := Some {| front_default := Some "dream.svg" |};
    home := Some {| home_front_default := Some "home.png"; home_front_shiny := None |};
    official_artwork := Some {| front_default := Some "artwork.png" |} |};
|}.

Definition sprites_home_and_default : PokemonSprites := {|
  sprites_front_default := Some "default.png";
  sprites_front_shiny := None;
  other := Some {|
    dream_world := None;
    home := Some {| home_front_default := Some "home.png"; home_front_shiny := None |};
    official_artwork := Some {| front_default := None |} |};
|}.

Definition sprites_none : PokemonSprites := {|
  sprites_front_default := None;
  sprites_front_shiny := None;
  other := None;
|}.

Definition type_slot (slot : Z) (name : string) : PokemonTypeSlot :=
  {| ts_slot := slot; ts_type := resource name |}.

Definition ability_slot (slot : Z) (name : string) (hidden : bool) : PokemonAbilitySlot :=
  {| as_ability := resource name; as_is_hidden := hidden; as_slot := slot |}.

Definition stat_slot (name : string) (base : Z) : PokemonStatSlot :=
  {| ss_base_stat := base; ss_effort := 0; ss_stat := resource name |}.

Definition bulbasaur_with (sprites : PokemonSprites) : Pokemon := {|
  p_id := 1;
  p_name := "bulbasaur";
  p_height := 7;
  p_weight := 69;
  p_order := 1;
  p_base_experience := 64;
  p_sprites := sprites;
  p_types := [type_slot 2 "poison"; type_slot 1 "grass"];
  p_abilities := [ability_slot 3 "chlorophyll" true; ability_slot 1 "overgrow" false];
  p_stats := [stat_slot "hp" 45; stat_slot "attack" 49];
  p_moves := [];
  p_species := resource "bulbasaur";
|}.

Definition bulbasaur : Pokemon := bulbasaur_with sprites_all.

Definition flavor_entry (language text : string) : PokemonSpeciesFlavorText :=
  {| flavor_text := text; ft_language := resource language;
     ft_version := resource "red" |}.

(** The text [Abc\fdef\n] of the specification's example: a form feed
    is the character with code 12 and a line feed the one with code 10. *)
Definition raw_flavor : string :=
  "Abc" ++ String (ascii_of_nat 12) ("def" ++ String (ascii_of_nat 10) EmptyString).

Definition bulbasaur_species : PokemonSpecies := {|
  sp_id := 1;
  sp_name := "bulbasaur";
  sp_color := Some (resource "green");
  sp_habitat := Some (resource "grassland");
  sp_genera := Some [{| genus := "Seed Pokemon"; g_language := resource "en" |}];
  flavor_text_entries := [flavor_entry "fr" "Graine"; flavor_entry "en" raw_flavor;
                          flavor_entry "en" "Second"];
  is_legendary := false;
  is_mythical := false;
  evolution_chain := Some "https://pokeapi.co/api/v2/evolution-chain/1/";
|}.

(** ** Sample services and worlds *)

Definition sample_page : PokemonListResponse := {|
  lr_count := 1302;
  lr_next := Some "https://pokeapi.co/api/v2/pokemon?offset=1&limit=1";
  lr_previous := None;
  lr_results := [resource "bulbasaur"];
|}.

Definition not_found : JSError := ErrorObject "Request failed with status code 404".

(** A service that knows one creature, under its name and under its id. *)
Definition sample_net : Network Payload := λ _ req,
  let url := req_url req in
  if String.eqb url "/pokemon" then
    {| latency := 120; outcome := inl (ListPayload sample_page) |}
  else if String.eqb url "/pokemon/bulbasaur" || String.eqb url "/pokemon/1" then
    {| latency := 90; outcome := inl (PokemonPayload bulbasaur) |}
  else if String.eqb url "/pokemon-species/bulbasaur"
          || String.eqb url "/pokemon-species/1" then
    {| latency := 70; outcome := inl (SpeciesPayload bulbasaur_species) |}
  else {| latency := 80; outcome := inr not_found |}.

(** No connection: every request is rejected. *)
Definition offline_net : Network Payload := λ _ _,
  {| latency := 5; outcome := inr (ErrorObject "Network Error") |}.

Definition cold_world : World Payload :=
  {| cache := ∅; clock := 1700000000000; sent := [] |}.

(** One entry, stored two seconds ago. *)
Definition warm_world : World Payload :=
  {| cache := {[ cacheKey "/pokemon/bulbasaur" None :=
                   {| timestamp := 1699999998000; data := PokemonPayload bulbasaur |} ]};
     clock := 1700000000000;
     sent := [] |}.

(** ** Sample runs *)

Definition limit_first : Params := [("limit", JNumber 1000); ("offset", JNumber 0)].
Definition offset_first : Params := [("offset", JNumber 0); ("limit", JNumber 1000)].

(** Two objects with the same three properties, the array indexes
    inserted in different order and at different places. *)
Definition indexes_descending : Params :=
  [("2", JBool false); ("1", JBool true); ("limit", JNumber 20)].
Definition indexes_ascending : Params :=
  [("1", JBool true); ("limit", JNumber 20); ("2", JBool false)].

Definition bulbasaur_request : Request :=
  {| req_url := "/pokemon/bulbasaur"; req_params := None |}.

Definition index_request : Request :=
  {| req_url := "/pokemon";
     req_params := Some [("limit", JNumber 1000); ("offset", JNumber 0)] |}.

(** The same page asked for twice in a row, with the keys of the second
    parameter object in the other order. *)
Definition page_then_reordered : Result Payload * World Payload :=
  getCached sample_net "/pokemon" (Some offset_first) None
    (getCached sample_net "/pokemon" (Some limit_first) None cold_world).2.

(** A page asked for with array indexes among the keys of the parameter
    object. *)
Definition indexed_fetch : Result Payload * World Payload :=
  getCached sample_net "/pokemon" (Some indexes_descending) None cold_world.

Definition first_fetch : Result Payload * World Payload :=
  getCached sample_net "/pokemon/bulbasaur" None None cold_world.

Definition missing_fetch : Result Payload * World Payload :=
  getCached sample_net "/pokemon/missingno" None None warm_world.

(** The messages of one engine. *)
Definition sample_messages (expected : Shape) : string :=
  match expected with
  | ListShape => "Cannot read properties of undefined (reading 'map')"
  | PokemonShape => "Cannot read properties of undefined (reading 'other')"
  | SpeciesShape => "Cannot read properties of undefined (reading 'find')"
  | SummaryShape => "Cannot read properties of undefined (reading 'id')"
  end.

(** Loading without a connection, once and then again.  The list is
    empty after the first call as it was before, so the second call goes
    through the same function object. *)
Definition offline_load : Run unit :=
  loadList sample_messages offline_net [] None None initial_store cold_world.

Definition offline_reload : Run unit :=
  loadList sample_messages offline_net [] None None
    (store_after initial_store offline_load) (world offline_load).

Definition offline_load_second_page : Run unit :=
  loadList sample_messages offline_net [] (Some 20) (Some 40) initial_store
    cold_world.

(** Loading from the sample service, and a second call ten minutes after
    the first has finished, through the function object built by the
    render that followed the first. *)
Definition sample_load : Run unit :=
  loadList sample_messages sample_net [] None None initial_store cold_world.

Definition sample_loaded : Store := store_after initial_store sample_load.

Definition sample_reload : Run unit :=
  loadList sample_messages sample_net (pokemonList sample_loaded) (Some 20) (Some 40)
    sample_loaded (elapse 600000 (world sample_load)).

(** The same second call through the function object of the first
    render, which a component that took it then may still hold. *)
Definition stale_reload : Run unit :=
  loadList sample_messages sample_net [] (Some 20) (Some 40) sample_loaded
    (elapse 600000 (world sample_load)).

(** A load of the third page of twenty, and a call without arguments
    after it. *)
Definition page_load : Run unit :=
  loadList sample_messages sample_net [] (Some 20) (Some 40) initial_store
    cold_world.

Definition page_loaded : Store := store_after initial_store page_load.

Definition default_reload : Run unit :=
  loadList sample_messages sample_net (pokemonList page_loaded) None None page_loaded
    (elapse 600000 (world page_load)).

Definition sample_detail : Run (Result PokemonDetail) :=
  getDetail sample_net (ById 1) initial_store cold_world.

(** ** More of the cache key *)

Definition is_undefined (v : JSValue) : bool :=
  match v with
  | JUndefined => true
  | _ => false
  end.

(** The properties [JSON.stringify] writes out. *)
Definition defined_props (params : list (string * JSValue))
  : list (string * JSValue) :=
  filter (λ kv, is_undefined kv.2 = false) params.

(** The key a fetcher's call is cached under. *)
Definition call_key (call : string * option Params) : string :=
  cacheKey call.1 call.2.

(** ** More sample worlds *)

(** The entry of [warm_world], read ten minutes after it was stored. *)
Definition stale_world : World Payload := elapse 598000 warm_world.

Definition stale_fetch_offline : Result Payload * World Payload :=
  getCached offline_net "/pokemon/bulbasaur" None None stale_world.

(** ** Orderings and invariants of worlds and stores *)

(** [w'] is a later state of [w]: no cache entry has gone, the log of
    requests has only grown at its end, and the clock has not gone
    back. *)
Definition world_grows {Data} (w w' : World Data) : Prop :=
  (∀ key, is_Some (cache w !! key) → is_Some (cache w' !! key))
  ∧ sent w `prefix_of` sent w'
  ∧ clock w ≤ clock w'.

(** Every entry of the two maps sits under its own id. *)
Definition keyed_by_own_id (st : Store) : Prop :=
  (∀ i entry, summariesById st !! i = Some entry → s_id (as_summary entry) = i)
  ∧ (∀ i detail, detailsById st !! i = Some detail → d_id detail = i).

(** Every member of the list has an entry in the summary map. *)
Definition list_indexed (st : Store) : Prop :=
  ∀ summary, summary ∈ pokemonList st → is_Some (summariesById st !! s_id summary).

(** Every id with a detail also has a summary. *)
Definition details_have_summaries (st : Store) : Prop :=
  ∀ i, is_Some (detailsById st !! i) → is_Some (summariesById st !! i).

Definition store_consistent (st : Store) : Prop :=
  keyed_by_own_id st ∧ list_indexed st ∧ details_have_summaries st.

(** The request a fetcher's call puts on the wire. *)
Definition call_request (call : string * option Params) : Request :=
  {| req_url := call.1; req_params := call.2 |}.

(** ** More sample runs *)

Definition sample_summary : Run (Result PokemonSummary) :=
  getSummary sample_net (ByName "bulbasaur") initial_store cold_world.

Definition missing_summary : Run (Result PokemonSummary) :=
  getSummary sample_net (ByName "missingno") initial_store cold_world.

Definition missing_detail : Run (Result PokemonDetail) :=
  getDetail sample_net (ByName "missingno") initial_store cold_world.

(** A service that answers a request for a species with the item. *)
Definition mixed_up_net : Network Payload := λ _ _,
  {| latency := 60; outcome := inl (PokemonPayload bulbasaur) |}.

Definition mixed_up_detail : Run (Result PokemonDetail) :=
  getDetail mixed_up_net (ById 1) initial_store cold_world.

(** The summary of the creature whose detail has just been fetched,
    asked for one second later from a store of its own. *)
Definition summary_after_detail : Run (Result PokemonSummary) :=
  getSummary sample_net (ById 1) initial_store (elapse 1000 (world sample_detail)).

(** An index that lists one name twice. *)
Definition twin_page : PokemonListResponse := {|
  lr_count := 2;
  lr_next := None;
  lr_previous := None;
  lr_results := [resource "bulbasaur"; resource "bulbasaur"];
|}.

Definition twin_net : Network Payload := λ now req,
  if String.eqb (req_url req) "/pokemon" then
    {| latency := 120; outcome := inl (ListPayload twin_page) |}
  else sample_net now req.

Definition twin_load : Run unit :=
  loadList sample_messages twin_net [] None None initial_store cold_world.

(** ** The pages ([pages.tsx])

    The computations of the three pages over the provider's [list], here [items].
    What the pages leave to the JavaScript runtime and to the locale
    ([String.prototype.trim], [toLowerCase], [localeCompare]) is a
    variable of the section. *)

(** [Array.prototype.includes] on strings and numbers. *)
Definition array_includes {A} `{EqDecision A} (l : list A) (x : A) : bool :=
  bool_decide (x ∈ l).

(** [String.prototype.includes]: [sub] occurs in [s] at some position. *)
Fixpoint string_includes (s sub : string) : bool :=
  String.prefix sub s
  || match s with
     | EmptyString => false
     | String _ rest => string_includes rest sub
     end.

(** [Array.prototype.findIndex]: the first position whose element
    passes the test, and [-1] when there is none. *)
Fixpoint findIndex {A} (test : A → bool) (l : list A) : Z :=
  match l with
  | [] => -1
  | x :: rest =>
      if test x then 0
      else if findIndex test rest <? 0 then -1 else findIndex test rest + 1
  end.

Inductive SortBy := SortById | SortByName.
Inductive SortOrder := Ascending | Descending.

Section ListPage.
Variable trim : string → string.
Variable toLowerCase : string → string.
Variable localeCompare : string → string → Z.

(** The [useMemo] of [ListPage]. *)
Definition filteredAndSorted (items : list PokemonSummary) (query : string)
    (sortBy : SortBy) (sortOrder : SortOrder) : list PokemonSummary :=
  let lowerQuery := toLowerCase (trim query) in
  let filtered :=
    match lowerQuery with
    | EmptyString => items
    | String _ _ =>
        List.filter
          (λ pokemon, string_includes (toLowerCase (s_name pokemon)) lowerQuery)
          items
    end in
  array_sort
    (λ a b,
       let comparison :=
         match sortBy with
         | SortByName => localeCompare (s_name a) (s_name b)
         | SortById => s_id a - s_id b
         end in
       match sortOrder with
       | Ascending => comparison
       | Descending => - comparison
       end)
    filtered.
End ListPage.

Section GalleryPage.
Variable localeCompare : string → string → Z.

(** [unique.add(type)] on a [Set], which keeps its elements in the order
    they were first added. *)
Definition set_add (unique : list string) (type : string) : list string :=
  if array_includes unique type then unique else (unique ++ [type])%list.

Definition allTypes (items : list PokemonSummary) : list string :=
  array_sort localeCompare
    (foldl (λ unique pokemon, foldl set_add unique (s_types pokemon)) [] items).
End GalleryPage.

(** The [useMemo] named [filtered] of [GalleryPage]. *)
Definition gallery_filtered (items : list PokemonSummary) (selectedTypes : list string)
  : list PokemonSummary :=
  if (length selectedTypes =? 0)%nat then items
  else
    List.filter
      (λ pokemon, forallb (λ type, array_includes (s_types pokemon) type) selectedTypes)
      items.

(** The updater [toggleType] hands to [setSelectedTypes]. *)
Definition toggleType (type : string) (prev : list string) : list string :=
  if array_includes prev type then filter (λ value, value ≠ type) prev
  else (prev ++ [type])%list.

(** What a click on a navigation button of [DetailPage] does. *)
Inductive Navigation :=
| Stay
| NavigateTo (path : string)
| Throws (error : JSError).

Definition currentIndex (detail : option PokemonDetail) (items : list PokemonSummary)
  : Z :=
  match detail with
  | None => -1
  | Some detail =>
      if (length items =? 0)%nat then -1
      else findIndex (λ pokemon, s_id pokemon =? d_id detail) items
  end.

Definition hasPrevious (detail : option PokemonDetail) (items : list PokemonSummary)
  : bool :=
  0 <? currentIndex detail items.

Definition hasNext (detail : option PokemonDetail) (items : list PokemonSummary)
  : bool :=
  (0 <=? currentIndex detail items)
  && (currentIndex detail items <? Z.of_nat (length items) - 1).

Definition detail_path (id : Z) : string := "/pokemon/" ++ number_to_string id.

(** [items[index]] with [index] a non-negative integer, followed by a
    property read that throws on [undefined]. *)
Definition navigate_to_index (items : list PokemonSummary) (index : Z) : Navigation :=
  match items !! Z.to_nat index with
  | Some target => NavigateTo (detail_path (s_id target))
  | None => Throws (TypeErrorObject SummaryShape)
  end.

Definition goToPrevious (detail : option PokemonDetail) (items : list PokemonSummary)
  : Navigation :=
  if hasPrevious detail items
  then navigate_to_index items (currentIndex detail items - 1)
  else Stay.

Definition goToNext (detail : option PokemonDetail) (items : list PokemonSummary)
  : Navigation :=
  if hasNext detail items
  then navigate_to_index items (currentIndex detail items + 1)
  else Stay.

(** ** Sample page state *)

Definition grass_poison : PokemonSummary :=
  {| s_id := 1; s_name := "bulbasaur"; s_sprite := None;
     s_types := ["grass"; "poison"] |}.

Definition fire : PokemonSummary :=
  {| s_id := 4; s_name := "charmander"; s_sprite := None; s_types := ["fire"] |}.

Definition fire_flying : PokemonSummary :=
  {| s_id := 6; s_name := "charizard"; s_sprite := None;
     s_types := ["fire"; "flying"] |}.

Definition three_items : list PokemonSummary := [fire_flying; grass_poison; fire].

(** A comparison of strings by length, standing in for the locale's. *)
Definition by_length (a b : string) : Z :=
  Z.of_nat (String.length a) - Z.of_nat (String.length b).

(** A runtime function that leaves its argument as it is, as [trim] and
    [toLowerCase] do on a lower-case query without surrounding space. *)
Definition unchanged (s : string) : string := s.

(** A detail with the given id. *)
Definition detail_of (id : Z) : PokemonDetail :=
  mapToDetail
    {| p_id := id; p_name := "item"; p_height := 0; p_weight := 0; p_order := 0;
       p_base_experience := 0; p_sprites := sprites_none; p_types := [];
       p_abilities := []; p_stats := []; p_moves := [];
       p_species := resource "item" |}
    bulbasaur_species.

(** [String.prototype.padStart] with a pad string of one code unit. *)
Fixpoint pad (n : nat) (c : ascii) (s : string) : string :=
  match n with
  | O => s
  | S n => String c (pad n c s)
  end.

Definition padStart (targetLength : nat) (padString : ascii) (s : string) : string :=
  pad (targetLength - String.length s) padString s.

Definition formatDexNumber (id : Z) : string :=
  String "#" (padStart 3 "0" (number_to_string id)).

(** Reading a dex label back: the number after the hash sign. *)
Definition dex_number (label : string) : option Z :=
  match label with
  | String c digits =>
      if Ascii.eqb c "#" then Z.of_int <$> NilZero.int_of_string digits else None
  | EmptyString => None
  end.

(** * Properties *)

(** ** The stable sort *)

Section SortByKey.
Context {A : Type} (key : A → Z).

Let cmp : A → A → Z := λ a b, key a - key b.
Let key_le : A → A → Prop := λ a b, key a ≤ key b.

Lemma insert_by_Permutation x l : insert_by cmp x l ≡ₚ x :: l.
Proof.
  induction l as [|y l IH]; simpl; [done|].
  destruct (cmp x y <=? 0); [done|].
  rewrite IH. apply Permutation_swap.
Qed.

Lemma array_sort_Permutation l : array_sort cmp l ≡ₚ l.
Proof.
  induction l as [|x l IH]; simpl; [done|].
  rewrite insert_by_Permutation. by f_equiv.
Qed.

Lemma insert_by_sorted x l :
  StronglySorted key_le l → StronglySorted key_le (insert_by cmp x l).
Proof.
  induction 1 as [|y l Hl IH Hy]; simpl.
  - repeat constructor.
  - destruct (Z.leb_spec (cmp x y) 0) as [Hle|Hgt].
    + constructor; [by constructor|].
      constructor; [unfold cmp in Hle; unfold key_le; lia|].
      eapply Forall_impl; [exact Hy|].
      intros z Hz. unfold cmp in Hle. unfold key_le in *. lia.
    + constructor; [exact IH|].
      rewrite insert_by_Permutation. constructor; [|exact Hy].
      unfold cmp in Hgt. unfold key_le. lia.
Qed.

Lemma array_sort_sorted l : StronglySorted key_le (array_sort cmp l).
Proof.
  induction l as [|x l IH]; simpl; [constructor|].
  by apply insert_by_sorted.
Qed.

(** Stability: the elements that share a key keep their input order. *)
Lemma insert_by_stable k x l :
  filter (λ a, key a = k) (insert_by cmp x l) = filter (λ a, key a = k) (x :: l).
Proof.
  induction l as [|y l IH]; simpl; [done|].
  destruct (Z.leb_spec (cmp x y) 0) as [Hle|Hgt]; [done|].
  rewrite filter_cons, IH, !filter_cons.
  unfold cmp in Hgt.
  repeat case_decide; try done; lia.
Qed.

Lemma array_sort_stable k l :
  filter (λ a, key a = k) (array_sort cmp l) = filter (λ a, key a = k) l.
Proof.
  induction l as [|x l IH]; simpl; [done|].
  rewrite insert_by_stable, !filter_cons, IH. done.
Qed.

(** With pairwise distinct keys the result does not depend on the
    order of the input at all. *)
Lemma array_sort_order_independent l l' :
  NoDup (map key l) → l' ≡ₚ l → array_sort cmp l' = array_sort cmp l.
Proof.
  intros Hnd Hp.
  apply (StronglySorted_unique_strong key_le).
  - intros x1 x2 H1 H2 Hle Hge.
    assert (Hk : key x1 = key x2) by (unfold key_le in *; lia).
    rewrite array_sort_Permutation in H1, H2. rewrite Hp in H1.
    clear -Hnd H1 H2 Hk.
    induction l as [|y l IH]; [by apply elem_of_nil in H1|].
    simpl in Hnd. apply NoDup_cons in Hnd as [Hy Hnd].
    apply elem_of_cons in H1 as [->|H1]; apply elem_of_cons in H2 as [->|H2];
      try done.
    + exfalso. apply Hy. rewrite Hk. apply list_elem_of_fmap. eauto.
    + exfalso. apply Hy. rewrite <- Hk. apply list_elem_of_fmap. eauto.
    + by apply IH.
  - apply array_sort_sorted.
  - apply array_sort_sorted.
  - by rewrite !array_sort_Permutation.
Qed.
End SortByKey.

(** ** Domain mapper *)

Lemma extractSprite_by_precedence item :
  extractSprite item = sprite_by_precedence item.
Proof.
  unfold extractSprite, sprite_by_precedence, official_artwork_url, home_url,
    dream_world_url, own_default_url.
  destruct (other (p_sprites item)) as [others|]; simpl.
  - destruct (official_artwork others) as [artwork|]; simpl;
      [destruct (front_default artwork); simpl; [done|]|];
      (destruct (home others) as [h|]; simpl;
        [destruct (home_front_default h); simpl; [done|]|]);
      (destruct (dream_world others) as [dream|]; simpl;
        [destruct (front_default dream); simpl; [done|]|]);
      by destruct (sprites_front_default (p_sprites item)).
  - by destruct (sprites_front_default (p_sprites item)).
Qed.

(** C6: [sprite()] returns the first present URL in the order
    official-artwork [front_default], home [front_default], dream-world
    [front_default], the item's own [front_default], and absent when none
    of the four is present.  So an official-artwork URL always wins, a
    home URL wins when there is no official artwork (in particular when
    only home and the own default are present), and so on down the
    list. *)
Theorem extractSprite_precedence (item : Pokemon) :
  extractSprite item
  = first_present [official_artwork_url item; home_url item;
                   dream_world_url item; own_default_url item]
  ∧ (∀ url, official_artwork_url item = Some url → extractSprite item = Some url)
  ∧ (∀ url, official_artwork_url item = None → home_url item = Some url →
       extractSprite item = Some url)
  ∧ (∀ url, official_artwork_url item = None → home_url item = None →
       dream_world_url item = Some url → extractSprite item = Some url)
  ∧ (∀ url, official_artwork_url item = None → home_url item = None →
       dream_world_url item = None → own_default_url item = Some url →
       extractSprite item = Some url)
  ∧ (official_artwork_url item = None → home_url item = None →
       dream_world_url item = None → own_default_url item = None →
       extractSprite item = None).
Proof.
  rewrite extractSprite_by_precedence. unfold sprite_by_precedence.
  split; [done|].
  repeat split; intros; simpl;
    repeat match goal with H : _ = _ |- _ => rewrite H; clear H end; done.
Qed.

Lemma extractSprite_precedence_witness :
  extractSprite (bulbasaur_with sprites_all) = Some "artwork.png"
  ∧ extractSprite (bulbasaur_with sprites_home_and_default) = Some "home.png"
  ∧ extractSprite (bulbasaur_with sprites_none) = None.
Proof.
  split; [|split].
  - destruct (extractSprite_precedence (bulbasaur_with sprites_all))
      as (_ & Hofficial & _).
    apply Hofficial. reflexivity.
  - destruct (extractSprite_precedence (bulbasaur_with sprites_home_and_default))
      as (_ & _ & Hhome & _).
    apply Hhome; reflexivity.
  - destruct (extractSprite_precedence (bulbasaur_with sprites_none))
      as (_ & _ & _ & _ & _ & Hnone).
    apply Hnone; reflexivity.
Defined.

(** C8: [types()] is the type names of the slots put in ascending order
    of slot index, whatever order the slots came in and keeping every
    duplicate; [abilities()] is the (name, hidden flag) pairs in
    ascending order of slot index; [stats()] is the (stat name, base
    value) pairs position by position in the order of the source. *)
Theorem slots_sorted_stats_in_source_order (item : Pokemon) :
  (∃ sorted : list PokemonTypeSlot,
      sorted ≡ₚ p_types item
      ∧ StronglySorted (λ a b, ts_slot a ≤ ts_slot b) sorted
      ∧ (∀ slot, filter (λ a, ts_slot a = slot) sorted
                 = filter (λ a, ts_slot a = slot) (p_types item))
      ∧ mapTypes (p_types item) = map (λ entry, res_name (ts_type entry)) sorted)
  ∧ (∃ sorted : list PokemonAbilitySlot,
      sorted ≡ₚ p_abilities item
      ∧ StronglySorted (λ a b, as_slot a ≤ as_slot b) sorted
      ∧ (∀ slot, filter (λ a, as_slot a = slot) sorted
                 = filter (λ a, as_slot a = slot) (p_abilities item))
      ∧ mapAbilities (p_abilities item)
        = map (λ entry, {| av_name := res_name (as_ability entry);
                           av_isHidden := as_is_hidden entry |}) sorted)
  ∧ length (mapStats (p_stats item)) = length (p_stats item)
  ∧ (∀ i : nat,
       mapStats (p_stats item) !! i
       = (λ entry, {| sv_name := res_name (ss_stat entry);
                      sv_value := ss_base_stat entry |}) <$> p_stats item !! i).
Proof.
  split; [|split; [|split]].
  - exists (array_sort (λ a b, ts_slot a - ts_slot b) (p_types item)).
    split; [apply (array_sort_Permutation ts_slot)|].
    split; [apply (array_sort_sorted ts_slot)|].
    split; [intros slot; apply (array_sort_stable ts_slot)|done].
  - exists (array_sort (λ a b, as_slot a - as_slot b) (p_abilities item)).
    split; [apply (array_sort_Permutation as_slot)|].
    split; [apply (array_sort_sorted as_slot)|].
    split; [intros slot; apply (array_sort_stable as_slot)|done].
  - unfold mapStats. by rewrite length_map.
  - intros i. unfold mapStats.
    change (map ?f ?l) with (f <$> l).
    by rewrite list_lookup_fmap.
Qed.

(** With pairwise distinct slot indexes, the usual case, the type names
    come out the same for every order of the input. *)
Lemma mapTypes_order_independent (types types' : list PokemonTypeSlot) :
  NoDup (map ts_slot types) → types' ≡ₚ types → mapTypes types' = mapTypes types.
Proof.
  intros Hnd Hp. unfold mapTypes.
  by rewrite (array_sort_order_independent ts_slot types types').
Qed.

Lemma mapAbilities_order_independent (abilities abilities' : list PokemonAbilitySlot) :
  NoDup (map as_slot abilities) → abilities' ≡ₚ abilities →
  mapAbilities abilities' = mapAbilities abilities.
Proof.
  intros Hnd Hp. unfold mapAbilities.
  by rewrite (array_sort_order_independent as_slot abilities abilities').
Qed.

Example mapTypes_bulbasaur : mapTypes (p_types bulbasaur) = ["grass"; "poison"].
Proof. reflexivity. Qed.

Example mapAbilities_bulbasaur :
  mapAbilities (p_abilities bulbasaur)
  = [{| av_name := "overgrow"; av_isHidden := false |};
     {| av_name := "chlorophyll"; av_isHidden := true |}].
Proof. reflexivity. Qed.

(** The example of the specification's section 8. *)
Example mapToSummary_pikachu :
  mapToSummary {|
    p_id := 25; p_name := "pikachu"; p_height := 4; p_weight := 60;
    p_order := 35; p_base_experience := 112;
    p_sprites := {| sprites_front_default := Some "x.png";
                    sprites_front_shiny := None; other := None |};
    p_types := [type_slot 1 "electric"]; p_abilities := []; p_stats := [];
    p_moves := []; p_species := resource "pikachu" |}
  = {| s_id := 25; s_name := "pikachu"; s_sprite := Some "x.png";
       s_types := ["electric"] |}.
Proof. reflexivity. Qed.

Lemma is_flavor_break_spec c :
  is_flavor_break c = true
  ↔ c = ascii_of_nat 12 ∨ c = ascii_of_nat 10 ∨ c = ascii_of_nat 13.
Proof.
  unfold is_flavor_break, form_feed, line_feed, carriage_return.
  rewrite !orb_true_iff, !Ascii.eqb_eq. tauto.
Qed.

Lemma replace_breaks_length text :
  String.length (replace_breaks text) = String.length text.
Proof. induction text as [|c text IH]; simpl; congruence. Qed.

Lemma replace_breaks_get i text :
  String.get i (replace_breaks text)
  = (λ c, if is_flavor_break c then " "%char else c) <$> String.get i text.
Proof.
  revert i. induction text as [|c text IH]; intros [|i]; simpl; auto.
Qed.

Lemma find_first_match {A} (f : A → bool) before x after :
  Forall (λ y, f y = false) before → f x = true →
  find f (before ++ x :: after)%list = Some x.
Proof.
  induction 1 as [|y before Hy _ IH]; intros Hx; simpl.
  - by rewrite Hx.
  - rewrite Hy. by apply IH.
Qed.

Lemma find_no_match {A} (f : A → bool) l :
  Forall (λ y, f y = false) l → find f l = None.
Proof. induction 1 as [|y l Hy _ IH]; simpl; [done|by rewrite Hy]. Qed.

(** C9: [flavorText()] is the text of the first flavor-text entry whose
    language tag is "en", of the same length, with every form feed
    (character code 12), line feed (code 10) and carriage return (code
    13) replaced by one space (code 32) and every other character kept;
    it is absent when there is no English entry; and the text
    [Abc\fdef\n], that is [Abc], code 12, [def], code 10, becomes
    [Abc def ]. *)
Theorem extractEnglishFlavor_first_english_sanitized (species : PokemonSpecies) :
  (∀ before entry after,
     flavor_text_entries species = (before ++ entry :: after)%list →
     Forall (λ e, res_name (ft_language e) ≠ "en") before →
     res_name (ft_language entry) = "en" →
     ∃ text,
       extractEnglishFlavor species = Some text
       ∧ String.length text = String.length (flavor_text entry)
       ∧ ∀ i c, String.get i (flavor_text entry) = Some c →
           String.get i text
           = Some (if decide (c = ascii_of_nat 12 ∨ c = ascii_of_nat 10
                              ∨ c = ascii_of_nat 13)
                   then ascii_of_nat 32 else c))
  ∧ (Forall (λ e, res_name (ft_language e) ≠ "en") (flavor_text_entries species) →
     extractEnglishFlavor species = None)
  ∧ sanitizeFlavorText
      (Some ("Abc" ++ String (ascii_of_nat 12)
                        ("def" ++ String (ascii_of_nat 10) EmptyString)))
    = Some "Abc def "
  ∧ sanitizeFlavorText
      (Some ("a" ++ String (ascii_of_nat 13) ("b" ++ String (ascii_of_nat 11) "c")))
    = Some ("a b" ++ String (ascii_of_nat 11) "c").
Proof.
  split; [|split; [|split; reflexivity]].
  - intros before entry after Hentries Hbefore Hen.
    exists (replace_breaks (flavor_text entry)).
    split; [|split].
    + unfold extractEnglishFlavor. rewrite Hentries.
      rewrite find_first_match; [done| |by apply String.eqb_eq].
      eapply Forall_impl; [exact Hbefore|].
      intros e He. by apply String.eqb_neq.
    + apply replace_breaks_length.
    + intros i c Hc. rewrite replace_breaks_get, Hc. simpl. f_equal.
      case_decide as Hbreak.
      * apply is_flavor_break_spec in Hbreak. by rewrite Hbreak.
      * destruct (is_flavor_break c) eqn:E; [|done].
        by apply is_flavor_break_spec in E.
  - intros Hnone. unfold extractEnglishFlavor.
    rewrite find_no_match; [done|].
    eapply Forall_impl; [exact Hnone|].
    intros e He. by apply String.eqb_neq.
Qed.

Lemma extractEnglishFlavor_first_english_sanitized_witness :
  ∃ text,
    extractEnglishFlavor bulbasaur_species = Some text
    ∧ String.length text = 8%nat
    ∧ String.get 3 text = Some (ascii_of_nat 32)
    ∧ String.get 4 text = Some (ascii_of_nat 100)
    ∧ String.get 7 text = Some (ascii_of_nat 32).
Proof.
  destruct (extractEnglishFlavor_first_english_sanitized bulbasaur_species)
    as (Hfirst & _ & _).
  destruct (Hfirst [flavor_entry "fr" "Graine"]
              (flavor_entry "en"
                 ("Abc" ++ String (ascii_of_nat 12)
                             ("def" ++ String (ascii_of_nat 10) EmptyString)))
              [flavor_entry "en" "Second"]) as (text & Htext & Hlength & Hget).
  - reflexivity.
  - repeat constructor. simpl. discriminate.
  - reflexivity.
  - exists text. split; [exact Htext|]. split; [exact Hlength|].
    split; [exact (Hget 3%nat (ascii_of_nat 12) eq_refl)|].
    split; [exact (Hget 4%nat (ascii_of_nat 100) eq_refl)|].
    exact (Hget 7%nat (ascii_of_nat 10) eq_refl).
Defined.

Example extractEnglishFlavor_bulbasaur :
  extractEnglishFlavor bulbasaur_species = Some "Abc def ".
Proof. reflexivity. Qed.

(** ** Transport and cache *)

Section TransportProperties.
Context {Data : Type}.
Variable net : Network Data.

Implicit Types (w : World Data) (url : string) (params : option Params).

Lemma fresh_entry_Some ttl key w entry :
  cache w !! key = Some entry → clock w - timestamp entry < ttl →
  fresh_entry ttl key w = Some (data entry).
Proof.
  intros Hentry Hfresh. unfold fresh_entry. rewrite Hentry.
  destruct (Z.ltb_spec (clock w - timestamp entry) ttl); [done|lia].
Qed.

Lemma fresh_entry_None ttl key w :
  (∀ entry, cache w !! key = Some entry → ttl ≤ clock w - timestamp entry) →
  fresh_entry ttl key w = None.
Proof.
  intros Hstale. unfold fresh_entry.
  destruct (cache w !! key) as [entry|] eqn:Hentry; [|done].
  specialize (Hstale entry eq_refl).
  destruct (Z.ltb_spec (clock w - timestamp entry) ttl); [lia|done].
Qed.

Lemma fresh_entry_inv ttl key w payload :
  fresh_entry ttl key w = Some payload →
  ∃ entry, cache w !! key = Some entry ∧ clock w - timestamp entry < ttl
           ∧ data entry = payload.
Proof.
  unfold fresh_entry. destruct (cache w !! key) as [entry|]; [|done].
  destruct (Z.ltb_spec (clock w - timestamp entry) ttl); [|done].
  intros [= <-]. eauto.
Qed.

(** A fulfilled call leaves the payload it returned in the cache. *)
Lemma getCached_fulfilled_cached url params ttl w payload w' :
  getCached net url params ttl w = (inl payload, w') →
  ∃ entry, cache w' !! cacheKey url params = Some entry ∧ data entry = payload.
Proof.
  unfold getCached.
  destruct (fresh_entry _ _ w) as [hit|] eqn:Hfresh.
  - intros [= <- <-]. apply fresh_entry_inv in Hfresh as (entry & ? & _ & ?).
    eauto.
  - unfold request_and_store.
    destruct (outcome (net (clock w) _)) as [got|e]; [|done].
    intros [= <- <-]. simpl. rewrite lookup_insert_eq. eauto.
Qed.

(** C3: with an entry under the key of (endpoint, params) that is
    younger than the ttl, the cached fetch returns that entry's payload
    and changes nothing, so no request goes out.  Otherwise exactly one
    request goes out, for this endpoint and these params, and when it
    fulfils the payload is returned and stored under the key with the
    time read when the response is there.  Hence, after a call that
    returned a payload, the same call repeated while the entry is
    younger than the ttl returns the same payload without a request, and
    repeated once the ttl has run out it sends exactly one request. *)
Theorem getCached_hit_or_one_request url params (ttl : option Z) w :
  let key := cacheKey url params in
  let limit := default DEFAULT_TTL ttl in
  let req := {| req_url := url; req_params := params |} in
  (∀ entry, cache w !! key = Some entry → clock w - timestamp entry < limit →
     getCached net url params ttl w = (inl (data entry), w))
  ∧ ((∀ entry, cache w !! key = Some entry → limit ≤ clock w - timestamp entry) →
     sent (getCached net url params ttl w).2 = (sent w ++ [req])%list
     ∧ ∀ payload, outcome (net (clock w) req) = inl payload →
         (getCached net url params ttl w).1 = inl payload
         ∧ cache (getCached net url params ttl w).2
           = <[key := {| timestamp := clock (getCached net url params ttl w).2;
                         data := payload |}]> (cache w)
         ∧ clock (getCached net url params ttl w).2
           = clock w + Z.of_N (latency (net (clock w) req)))
  ∧ (∀ payload w1,
       getCached net url params ttl w = (inl payload, w1) →
       ∃ entry, cache w1 !! key = Some entry ∧
         ∀ dt,
           (clock (elapse dt w1) - timestamp entry < limit →
              getCached net url params ttl (elapse dt w1)
              = (inl payload, elapse dt w1))
           ∧ (limit ≤ clock (elapse dt w1) - timestamp entry →
              sent (getCached net url params ttl (elapse dt w1)).2
              = (sent w1 ++ [req])%list)).
Proof.
  intros key limit req.
  assert (Hhit : ∀ w0 entry, cache w0 !! key = Some entry →
            clock w0 - timestamp entry < limit →
            getCached net url params ttl w0 = (inl (data entry), w0)).
  { intros w0 entry Hentry Hfresh. unfold getCached.
    by rewrite (fresh_entry_Some _ _ _ entry). }
  assert (Hmiss : ∀ w0,
            (∀ entry, cache w0 !! key = Some entry →
                      limit ≤ clock w0 - timestamp entry) →
            getCached net url params ttl w0 = request_and_store net key req w0).
  { intros w0 Hstale. unfold getCached. by rewrite fresh_entry_None. }
  split; [|split].
  - apply Hhit.
  - intros Hstale. rewrite (Hmiss w Hstale). unfold request_and_store.
    split.
    + by destruct (outcome (net (clock w) req)).
    + intros payload Hok. by rewrite Hok.
  - intros payload w1 Hcall.
    destruct (getCached_fulfilled_cached _ _ _ _ _ _ Hcall) as (entry & Hentry & <-).
    exists entry. split; [exact Hentry|].
    intros dt. split.
    + intros Hfresh. by apply Hhit.
    + intros Hstale. rewrite Hmiss.
      * unfold request_and_store. simpl.
        by destruct (outcome (net _ req)).
      * simpl. intros entry' Hentry'.
        fold key in Hentry. rewrite Hentry in Hentry'.
        by injection Hentry' as <-.
Qed.

(** C7: a call of the cached fetch rejects only with the reason the
    network request rejected with, and whenever the network request
    rejects, the call rejects with that same reason and the cache table
    is the one from before the call: nothing is added and nothing is
    overwritten. *)
Theorem getCached_failure_propagates url params (ttl : option Z) w :
  let key := cacheKey url params in
  let req := {| req_url := url; req_params := params |} in
  (∀ e, fresh_entry (default DEFAULT_TTL ttl) key w = None →
        outcome (net (clock w) req) = inr e →
        (getCached net url params ttl w).1 = inr e
        ∧ cache (getCached net url params ttl w).2 = cache w)
  ∧ (∀ e, (getCached net url params ttl w).1 = inr e →
        outcome (net (clock w) req) = inr e
        ∧ sent (getCached net url params ttl w).2 = (sent w ++ [req])%list
        ∧ cache (getCached net url params ttl w).2 = cache w).
Proof.
  intros key req. unfold getCached. fold key. fold req. split.
  - intros e -> Hfail. unfold request_and_store. by rewrite Hfail.
  - intros e.
    destruct (fresh_entry _ key w) as [hit|]; [done|].
    unfold request_and_store.
    destruct (outcome (net (clock w) req)) as [payload|e']; [done|].
    simpl. by intros [= ->].
Qed.
(** A batch of one call is the call on its own. *)
Lemma single_flight (call : string * option Params) ttl w :
  (flight_outcome (take_off net ttl w call), land_all [take_off net ttl w call] w)
  = getCached net call.1 call.2 ttl w.
Proof.
  unfold take_off, getCached, land_all.
  destruct (fresh_entry _ _ w) as [payload|]; simpl.
  - rewrite Z.max_id, app_nil_r. by destruct w.
  - unfold request_and_store, flight_write.
    rewrite Z.max_l by lia.
    by destruct (outcome (net (clock w) _)).
Qed.
End TransportProperties.

(** ** The cache key *)

#[local] Arguments String.append !_ _ / : simpl nomatch.

Example cacheKey_list :
  cacheKey "/pokemon" (Some [("limit", JNumber 1000); ("offset", JNumber 0)])
  = "{" ++ in_quotes "url" ++ ":" ++ in_quotes "/pokemon" ++ ","
        ++ in_quotes "params" ++ ":{" ++ in_quotes "limit" ++ ":1000,"
        ++ in_quotes "offset" ++ ":0}}".
Proof. reflexivity. Qed.

Example cacheKey_no_params :
  cacheKey "/pokemon/25" None
  = "{" ++ in_quotes "url" ++ ":" ++ in_quotes "/pokemon/25" ++ "}".
Proof. reflexivity. Qed.

Example quote_escapes :
  quote raw_flavor
  = double_quote ++ "Abc" ++ escape "fdef" ++ escape "n" ++ double_quote.
Proof. reflexivity. Qed.

Lemma append_assoc (a b c : string) : (a ++ b) ++ c = a ++ (b ++ c).
Proof. induction a as [|x a IH]; simpl; congruence. Qed.

Lemma append_inv_head (a b c : string) : a ++ b = a ++ c → b = c.
Proof. induction a as [|x a IH]; simpl; [done|]. intros [= H]. auto. Qed.

Lemma unquote_quote_char c rest :
  unquote_char (quote_char c ++ rest) = Some (c, rest).
Proof. destruct c as [[] [] [] [] [] [] [] []]; reflexivity. Qed.

Lemma quote_body_delimited k k' rest rest' :
  quote_body k ++ double_quote ++ rest = quote_body k' ++ double_quote ++ rest' →
  k = k' ∧ rest = rest'.
Proof.
  revert k'. induction k as [|c k IH]; intros [|c' k']; simpl.
  - by intros [= ->].
  - rewrite append_assoc. intros H. apply (f_equal unquote_char) in H.
    by rewrite unquote_quote_char in H.
  - rewrite append_assoc. intros H. apply (f_equal unquote_char) in H.
    by rewrite unquote_quote_char in H.
  - rewrite !append_assoc. intros H. apply (f_equal unquote_char) in H.
    rewrite !unquote_quote_char in H. injection H as -> H.
    by destruct (IH _ H) as [-> ->].
Qed.

Lemma quote_delimited k k' rest rest' :
  quote k ++ rest = quote k' ++ rest' → k = k' ∧ rest = rest'.
Proof.
  unfold quote. rewrite !append_assoc. simpl. intros [= H].
  rewrite ?append_assoc in H. by apply quote_body_delimited.
Qed.

Lemma number_to_string_inj n n' :
  number_to_string n = number_to_string n' → n = n'.
Proof.
  unfold number_to_string. intros H.
  assert (Hparse : ∀ z, NilZero.int_of_string (NilZero.string_of_int (Z.to_int z))
                        = Some (Z.to_int z)).
  { intros z. apply NilZero.isi; destruct z; simpl; try done;
      intros [= E]; by apply DecimalPos.Unsigned.to_uint_nonnil in E. }
  apply (f_equal NilZero.int_of_string) in H. rewrite !Hparse in H.
  injection H as H. apply (f_equal Z.of_int) in H. by rewrite !DecimalZ.of_to in H.
Qed.

Lemma array_index_canonical key n :
  array_index key = Some n → key = number_to_string n.
Proof.
  unfold array_index. destruct (NilZero.int_of_string key) as [i|]; [|done].
  cbv zeta.
  destruct ((0 <=? Z.of_int i) && (Z.of_int i <? 2 ^ 32 - 1)
            && String.eqb (number_to_string (Z.of_int i)) key) eqn:Hcanonical;
    [|done].
  intros [= <-]. apply andb_true_iff in Hcanonical as [_ Hcanonical].
  symmetry. by apply String.eqb_eq.
Qed.

Lemma array_index_safe key n : array_index key = Some n → safe_integer n.
Proof.
  unfold array_index. destruct (NilZero.int_of_string key) as [i|]; [|done].
  cbv zeta.
  destruct (Z.leb_spec 0 (Z.of_int i)); [|done].
  destruct (Z.ltb_spec (Z.of_int i) (2 ^ 32 - 1)); [|done].
  destruct (String.eqb _ key); [|done].
  intros [= <-]. unfold safe_integer, MAX_SAFE_INTEGER. lia.
Qed.

Lemma filter_keeps_all {A} (P : A → Prop) `{!∀ x, Decision (P x)} (l : list A) :
  Forall P l → filter P l = l.
Proof.
  induction 1 as [|x l Hx _ IH]; [done|].
  by rewrite filter_cons, decide_True, IH.
Qed.

Lemma filter_drops_all {A} (P : A → Prop) `{!∀ x, Decision (P x)} (l : list A) :
  Forall (λ x, ¬ P x) l → filter P l = [].
Proof.
  induction 1 as [|x l Hx _ IH]; [done|].
  by rewrite filter_cons, decide_False, IH.
Qed.

Section PropertyOrder.
Context {A : Type}.

Implicit Types (props : list (string * A)).

Lemma own_property_order_Permutation props : own_property_order props ≡ₚ props.
Proof.
  unfold own_property_order.
  rewrite (array_sort_Permutation (λ kv : string * A, default 0 (array_index kv.1))).
  induction props as [|[k v] props IH]; [done|].
  rewrite !filter_cons. cbn [fst].
  destruct (array_index k) as [n|] eqn:Hk.
  - rewrite decide_True by eauto. rewrite decide_False by done.
    cbn [app]. by f_equiv.
  - rewrite decide_False by (by intros [? ?]). rewrite decide_True by done.
    rewrite <- Permutation_middle. by f_equiv.
Qed.

(** Without array indexes among the keys, as in every parameter object
    the fetchers build, the properties are enumerated as they were
    inserted. *)
Lemma own_property_order_plain props :
  Forall (λ kv, array_index kv.1 = None) props → own_property_order props = props.
Proof.
  intros Hplain. unfold own_property_order.
  rewrite filter_drops_all, filter_keeps_all; [done|done|].
  eapply Forall_impl; [exact Hplain|].
  intros kv Hkv [n Hn]. congruence.
Qed.

Lemma same_key_same_property props (x y : string * A) :
  NoDup (map fst props) → x ∈ props → y ∈ props → x.1 = y.1 → x = y.
Proof.
  induction props as [|z props IH]; intros Hnd Hx Hy Hkey.
  - by apply elem_of_nil in Hx.
  - simpl in Hnd. apply NoDup_cons in Hnd as [Hz Hnd].
    apply elem_of_cons in Hx as [->|Hx]; apply elem_of_cons in Hy as [->|Hy].
    + done.
    + exfalso. apply Hz. rewrite Hkey. apply list_elem_of_fmap. eauto.
    + exfalso. apply Hz. rewrite <- Hkey. apply list_elem_of_fmap. eauto.
    + by apply IH.
Qed.

Lemma array_indexes_NoDup props :
  NoDup (map fst props) →
  NoDup (map (λ kv : string * A, default 0 (array_index kv.1))
           (filter (λ kv, is_Some (array_index kv.1)) props)).
Proof.
  intros Hnd. change (map ?f ?l) with (f <$> l).
  apply NoDup_fmap_2_strong.
  - intros x y [[n Hn] Hx]%list_elem_of_filter [[m Hm] Hy]%list_elem_of_filter.
    rewrite Hn, Hm. cbn [from_option id]. intros ->.
    apply (same_key_same_property props); [done..|].
    apply array_index_canonical in Hn, Hm. congruence.
  - apply NoDup_filter. by apply (NoDup_fmap_1 fst).
Qed.

(** The order of enumeration does not depend on the order in which the
    array indexes were inserted. *)
Lemma own_property_order_same props props' :
  props ≡ₚ props' → NoDup (map fst props) →
  filter (λ kv, array_index kv.1 = None) props
  = filter (λ kv, array_index kv.1 = None) props' →
  own_property_order props = own_property_order props'.
Proof.
  intros Hperm Hnd Hplain. unfold own_property_order. rewrite Hplain. f_equal.
  symmetry.
  apply (array_sort_order_independent
           (λ kv : string * A, default 0 (array_index kv.1))).
  - by apply array_indexes_NoDup.
  - by rewrite Hperm.
Qed.
End PropertyOrder.

Lemma members_Permutation ser (props props' : list (string * JSValue)) :
  props ≡ₚ props' → members ser props ≡ₚ members ser props'.
Proof.
  induction 1 as [|[k v] l l' _ IH|[k v] [k' v'] l|l1 l2 l3 _ IH1 _ IH2];
    cbn [members].
  - done.
  - destruct (ser v); [by f_equiv|done].
  - destruct (ser v), (ser v'); try done. apply Permutation_swap.
  - by etrans.
Qed.

Lemma members_key ser (props : list (string * JSValue)) k :
  k ∈ map fst (members ser props) → k ∈ map fst props.
Proof.
  induction props as [|[k' v] props IH]; cbn [members]; [done|].
  destruct (ser v); cbn [map fst].
  - intros [->|Hk]%elem_of_cons; [apply list_elem_of_here|].
    apply list_elem_of_further. by apply IH.
  - intros Hk. apply list_elem_of_further. by apply IH.
Qed.

Lemma members_keys_NoDup ser (props : list (string * JSValue)) :
  NoDup (map fst props) → NoDup (map fst (members ser props)).
Proof.
  induction props as [|[k v] props IH]; cbn [members map fst]; [done|].
  intros [Hk Hnd]%NoDup_cons.
  destruct (ser v); cbn [map fst]; [|by apply IH].
  apply NoDup_cons. split; [|by apply IH].
  intros Hin. by apply Hk, (members_key ser).
Qed.

(** Leaving out the [undefined] properties commutes with picking the
    keys that are not array indexes. *)
Lemma members_filter_plain ser (props : list (string * JSValue)) :
  filter (λ kv, array_index kv.1 = None) (members ser props)
  = members ser (filter (λ kv, array_index kv.1 = None) props).
Proof.
  induction props as [|[k v] props IH]; [done|].
  rewrite filter_cons. cbn [members fst].
  destruct (ser v) as [text|] eqn:Hv.
  - rewrite filter_cons. cbn [fst].
    destruct (decide (array_index k = None)); cbn [members]; rewrite ?Hv;
      by rewrite IH.
  - destruct (decide (array_index k = None)); cbn [members]; rewrite ?Hv;
      exact IH.
Qed.

(** C1, as the code has it: [cacheKey] writes the properties of the
    parameter object in the order in which [JSON.stringify] enumerates
    them, array indexes first and in ascending order, then the other
    keys as they were inserted.  So for one endpoint, two parameter
    objects that hold the same key/value pairs get the identical key,
    and both lookups address the same cache entry, when the keys that
    are not array indexes were inserted in the same order in both; the
    order in which array indexes were inserted does not matter.  In
    particular, what a cached fetch with the one object has returned
    and stored, a cached fetch with the other returns without a request
    for as long as the entry is younger than the ttl. *)
Theorem cacheKey_same_pairs_same_plain_order (url : string) (params params' : Params) :
  params ≡ₚ params' →
  NoDup (map fst params) →
  filter (λ kv, array_index kv.1 = None) params
  = filter (λ kv, array_index kv.1 = None) params' →
  cacheKey url (Some params) = cacheKey url (Some params')
  ∧ (∀ {Data} (w : World Data),
       cache w !! cacheKey url (Some params) = cache w !! cacheKey url (Some params'))
  ∧ (∀ {Data} (net : Network Data) (ttl : option Z) w payload w1,
       getCached net url (Some params) ttl w = (inl payload, w1) →
       ∃ entry,
         cache w1 !! cacheKey url (Some params') = Some entry
         ∧ ∀ dt,
             clock (elapse dt w1) - timestamp entry < default DEFAULT_TTL ttl →
             getCached net url (Some params') ttl (elapse dt w1)
             = (inl payload, elapse dt w1)).
Proof.
  intros Hperm Hnd Hplain. unfold Params in *.
  assert (Hkey : cacheKey url (Some params) = cacheKey url (Some params')).
  2: { split; [exact Hkey|]. split; [by intros Data w; rewrite Hkey|].
       intros Data net ttl w payload w1 Hcall.
       destruct (getCached_fulfilled_cached _ _ _ _ _ _ _ Hcall)
         as (entry & Hentry & <-).
       rewrite Hkey in Hentry. exists entry. split; [exact Hentry|].
       intros dt Hfresh. unfold getCached.
       by rewrite (fresh_entry_Some _ _ _ entry). }
  assert (Hobject : stringify_object serialize params
                    = stringify_object serialize params').
  { unfold stringify_object.
    rewrite (own_property_order_same (members serialize params)
               (members serialize params')); [done| | |].
    - by apply members_Permutation.
    - by apply members_keys_NoDup.
    - by rewrite !members_filter_plain, Hplain. }
  unfold cacheKey. cbn [from_option].
  unfold stringify_object at 1 2. cbn [members serialize].
  by rewrite Hobject.
Qed.

Lemma cacheKey_same_pairs_same_plain_order_witness :
  cacheKey "/pokemon" (Some indexes_descending)
  = cacheKey "/pokemon" (Some indexes_ascending)
  ∧ cache warm_world !! cacheKey "/pokemon" (Some indexes_descending)
    = cache warm_world !! cacheKey "/pokemon" (Some indexes_ascending)
  ∧ getCached sample_net "/pokemon" (Some indexes_ascending) None
      (elapse 1000 indexed_fetch.2)
    = (inl (ListPayload sample_page), elapse 1000 indexed_fetch.2).
Proof.
  destruct (cacheKey_same_pairs_same_plain_order "/pokemon" indexes_descending
              indexes_ascending) as (Hkey & Hentry & Hagain).
  - apply Permutation_cons_append.
  - compute_done.
  - reflexivity.
  - split; [exact Hkey|]. split; [apply Hentry|].
    destruct (Hagain Payload sample_net None cold_world (ListPayload sample_page)
                indexed_fetch.2) as (entry & Hstored & Hlater); [reflexivity|].
    apply Hlater.
    assert (Hcomputed : cache indexed_fetch.2
                          !! cacheKey "/pokemon" (Some indexes_ascending)
                        = Some {| timestamp := 1700000000120;
                                  data := ListPayload sample_page |})
      by (vm_compute; reflexivity).
    rewrite Hstored in Hcomputed. injection Hcomputed as ->.
    vm_compute. reflexivity.
Defined.

Example array_index_samples :
  array_index "0" = Some 0
  ∧ array_index "42" = Some 42
  ∧ array_index "4294967294" = Some 4294967294
  ∧ array_index "4294967295" = None
  ∧ array_index "042" = None
  ∧ array_index "-1" = None
  ∧ array_index "-0" = None
  ∧ array_index "1.5" = None
  ∧ array_index "limit" = None
  ∧ array_index EmptyString = None.
Proof. repeat split. Qed.

Example own_property_order_samples :
  own_property_order [("b", 1); ("10", 2); ("a", 3); ("9", 4); ("010", 5)]
  = [("9", 4); ("10", 2); ("b", 1); ("a", 3); ("010", 5)].
Proof. reflexivity. Qed.

(** The key of an object with array indexes among its keys. *)
Example cacheKey_indexes :
  cacheKey "/pokemon" (Some indexes_descending)
  = "{" ++ in_quotes "url" ++ ":" ++ in_quotes "/pokemon" ++ ","
        ++ in_quotes "params" ++ ":{" ++ in_quotes "1" ++ ":true,"
        ++ in_quotes "2" ++ ":false," ++ in_quotes "limit" ++ ":20}}".
Proof. reflexivity. Qed.

(** C1 as stated fails: [limit_first] and [offset_first] hold the same
    two pairs, inserted in different order, and get different keys; the
    second lookup therefore misses the entry the first one stored and
    goes to the network again. *)
Lemma cacheKey_insertion_order_counterexample :
  limit_first ≡ₚ offset_first
  ∧ NoDup (map fst limit_first)
  ∧ cacheKey "/pokemon" (Some limit_first) ≠ cacheKey "/pokemon" (Some offset_first)
  ∧ length (sent page_then_reordered.2) = 2%nat.
Proof.
  split; [apply Permutation_swap|].
  split; [compute_done|].
  split; [vm_compute; discriminate|].
  vm_compute. reflexivity.
Qed.

Lemma getCached_hit_or_one_request_witness :
  getCached sample_net "/pokemon/bulbasaur" None None warm_world
  = (inl (PokemonPayload bulbasaur), warm_world)
  ∧ sent first_fetch.2 = [bulbasaur_request]
  ∧ first_fetch.1 = inl (PokemonPayload bulbasaur)
  ∧ getCached sample_net "/pokemon/bulbasaur" None None (elapse 1000 first_fetch.2)
    = (inl (PokemonPayload bulbasaur), elapse 1000 first_fetch.2).
Proof.
  destruct (getCached_hit_or_one_request sample_net "/pokemon/bulbasaur" None None
              warm_world) as (Hhit & _ & _).
  destruct (getCached_hit_or_one_request sample_net "/pokemon/bulbasaur" None None
              cold_world) as (_ & Hmiss & Hagain).
  assert (Hstale : ∀ entry,
            cache cold_world !! cacheKey "/pokemon/bulbasaur" None = Some entry →
            default DEFAULT_TTL None ≤ clock cold_world - timestamp entry).
  { intros entry Hentry. simpl in Hentry. by rewrite lookup_empty in Hentry. }
  destruct (Hmiss Hstale) as [Hsent Hstore].
  destruct (Hstore (PokemonPayload bulbasaur) eq_refl) as (Hret & Hcache & Hclock).
  fold first_fetch in Hsent, Hret, Hcache, Hclock, Hagain.
  split; [|split; [|split]].
  - apply (Hhit {| timestamp := 1699999998000; data := PokemonPayload bulbasaur |}).
    + apply lookup_singleton_eq.
    + vm_compute. reflexivity.
  - exact Hsent.
  - exact Hret.
  - destruct (Hagain (PokemonPayload bulbasaur) first_fetch.2)
      as (entry & Hentry & Hlater).
    { rewrite (surjective_pairing first_fetch). by rewrite Hret. }
    apply (Hlater 1000%N).
    rewrite Hcache, lookup_insert_eq in Hentry. injection Hentry as <-.
    simpl. unfold DEFAULT_TTL. lia.
Defined.

Lemma getCached_failure_propagates_witness :
  missing_fetch.1 = inr not_found ∧ cache missing_fetch.2 = cache warm_world.
Proof.
  destruct (getCached_failure_propagates sample_net "/pokemon/missingno" None None
              warm_world) as (Hfail & _).
  apply Hfail.
  - apply fresh_entry_None. intros entry Hentry. simpl in Hentry.
    rewrite lookup_singleton_ne in Hentry; [done|].
    vm_compute. discriminate.
  - reflexivity.
Defined.

(** ** [Promise.all] *)

Lemma promise_all_rejects_with {A} (promises : list (Settled A)) e :
  promise_all promises = inr e →
  ∃ s, s ∈ promises ∧ settlement s = inr e.
Proof.
  unfold promise_all.
  destruct (array_sort _ (omap rejection promises)) as [|first rest] eqn:Hsort;
    [done|].
  intros [= <-].
  assert (Hin : first ∈ omap rejection promises).
  { rewrite <- (array_sort_Permutation fst), Hsort. apply list_elem_of_here. }
  apply list_elem_of_omap in Hin as (s & Hs & Hrej).
  exists s. split; [exact Hs|].
  unfold rejection in Hrej. destruct (settlement s); [done|].
  by injection Hrej as <-.
Qed.

Lemma promise_all_rejected {A} (promises : list (Settled A)) s e :
  s ∈ promises → settlement s = inr e → ∃ e', promise_all promises = inr e'.
Proof.
  intros Hs He. unfold promise_all.
  destruct (array_sort _ (omap rejection promises)) as [|first rest] eqn:Hsort;
    [|eauto].
  assert (Hin : (settled_at s, e) ∈ omap rejection promises).
  { apply list_elem_of_omap. exists s. split; [exact Hs|].
    unfold rejection. by rewrite He. }
  rewrite <- (array_sort_Permutation fst), Hsort in Hin.
  by apply elem_of_nil in Hin.
Qed.

Lemma promise_all_fulfils {A} (promises : list (Settled A)) values :
  promise_all promises = inl values →
  Forall2 (λ s v, settlement s = inl v) promises values.
Proof.
  unfold promise_all.
  destruct (array_sort _ (omap rejection promises)) as [|first rest] eqn:Hsort;
    [|done].
  intros [= <-].
  assert (Hnone : omap rejection promises = []).
  { apply Permutation_nil_r. by rewrite <- (array_sort_Permutation fst), Hsort. }
  clear Hsort. induction promises as [|s promises IH]; simpl; [constructor|].
  simpl in Hnone. unfold rejection, fulfilment in *.
  destruct (settlement s) as [v|e] eqn:Hs; [|done].
  constructor; [exact Hs|]. by apply IH.
Qed.

(** ** Fetchers *)

#[local] Arguments fetchPokemonSummaries : simpl never.
#[local] Arguments fetchPokemonSummary : simpl never.
#[local] Arguments fetchPokemonList : simpl never.
#[local] Arguments fetchPokemonDetail : simpl never.
#[local] Arguments load_page : simpl never.

Section StoreProperties.
Variable net : Network Payload.

Implicit Types (w : World Payload) (st : Store).

Lemma take_off_outcome ttl w (call : string * option Params) :
  flight_outcome (take_off net ttl w call) = (getCached net call.1 call.2 ttl w).1.
Proof.
  unfold take_off, getCached.
  destruct (fresh_entry _ _ w); [done|].
  unfold request_and_store. simpl.
  by destruct (outcome (net (clock w) _)).
Qed.

(** A summary fetched inside the batch settles as the same fetch would
    when called on its own in that world. *)
Lemma summary_flight_settlement t w nameOrId :
  settlement (settled_then summary_of_payload
                (settle t (take_off net None w (pokemon_call nameOrId))))
  = (fetchPokemonSummary net nameOrId w).1.
Proof.
  unfold fetchPokemonSummary, fetchPokemonByNameOrId. simpl.
  rewrite take_off_outcome.
  by destruct (getCached net _ _ None w).
Qed.

Lemma fetchPokemonSummaries_rejects_with results w e :
  (fetchPokemonSummaries net results w).1 = inr e →
  ∃ result, result ∈ results
    ∧ (fetchPokemonSummary net (ByName (res_name result)) w).1 = inr e.
Proof.
  unfold fetchPokemonSummaries. simpl. intros H.
  apply promise_all_rejects_with in H as (s & Hs & He).
  change (map ?f ?l) with (f <$> l) in Hs.
  apply list_elem_of_fmap in Hs as (flight & -> & Hflight).
  apply list_elem_of_fmap in Hflight as (result & -> & Hresult).
  exists result. split; [exact Hresult|].
  by rewrite <- (summary_flight_settlement (clock w)).
Qed.

Lemma fetchPokemonSummaries_rejected results w result e :
  result ∈ results →
  (fetchPokemonSummary net (ByName (res_name result)) w).1 = inr e →
  ∃ e', (fetchPokemonSummaries net results w).1 = inr e'.
Proof.
  intros Hresult He. unfold fetchPokemonSummaries. simpl.
  eapply promise_all_rejected; [|by rewrite summary_flight_settlement].
  change (map ?f ?l) with (f <$> l).
  apply list_elem_of_fmap. eexists. split; [reflexivity|].
  apply list_elem_of_fmap. exists result. split; [reflexivity|exact Hresult].
Qed.

Lemma load_page_rejects_with limit offset w e :
  (load_page net limit offset w).1 = inr e →
  let index := fetchPokemonList net (Some limit) (Some offset) w in
  result_bind index.1 as_list = inr e
  ∨ ∃ response result,
      result_bind index.1 as_list = inl response
      ∧ result ∈ lr_results response
      ∧ (fetchPokemonSummary net (ByName (res_name result)) index.2).1 = inr e.
Proof.
  unfold load_page.
  destruct (fetchPokemonList net (Some limit) (Some offset) w) as [payload w1].
  cbn [fst snd]. destruct (result_bind payload as_list) as [response|e0] eqn:Hindex.
  - destruct (fetchPokemonSummaries net (lr_results response) w1)
      as [summaries w2] eqn:Hbatch.
    simpl. destruct summaries as [summaries|e1]; [done|].
    simpl. intros [= <-]. right. exists response.
    destruct (fetchPokemonSummaries_rejects_with (lr_results response) w1 e1)
      as (result & ? & ?); [by rewrite Hbatch|].
    eauto.
  - simpl. intros [= <-]. by left.
Qed.

Lemma load_page_rejected limit offset w :
  let index := fetchPokemonList net (Some limit) (Some offset) w in
  ((∃ e, result_bind index.1 as_list = inr e)
   ∨ ∃ response result e,
       result_bind index.1 as_list = inl response
       ∧ result ∈ lr_results response
       ∧ (fetchPokemonSummary net (ByName (res_name result)) index.2).1 = inr e) →
  ∃ e', (load_page net limit offset w).1 = inr e'.
Proof.
  unfold load_page.
  destruct (fetchPokemonList net (Some limit) (Some offset) w) as [payload w1].
  cbn [fst snd]. intros [[e He]|(response & result & e & Hindex & Hresult & He)].
  - rewrite He. eauto.
  - rewrite Hindex.
    destruct (fetchPokemonSummaries_rejected _ _ _ _ Hresult He) as [e' He'].
    destruct (fetchPokemonSummaries net (lr_results response) w1)
      as [summaries w2].
    simpl in *. rewrite He'. eauto.
Qed.
End StoreProperties.

(** ** Aggregate store *)

Section AggregateStoreProperties.
Variable type_error_message : Shape → string.
Variable net : Network Payload.

Implicit Types (w : World Payload) (st : Store) (captured : list PokemonSummary).

Lemma loadList_guarded captured limit offset st w :
  captured ≠ [] →
  loadList type_error_message net captured limit offset st w
  = {| returned := (); commits := []; world := w |}.
Proof.
  intros Hlist. unfold loadList.
  destruct captured as [|summary rest]; [done|].
  reflexivity.
Qed.

Lemma loadList_unguarded limit offset st w :
  loadList type_error_message net [] limit offset st w
  = let l := default 1000 limit in
    let o := default 0 offset in
    let st3 := setListParams {| limit := l; offset := o |}
                 (setListError None (setIsListLoading true st)) in
    let body :=
      match (load_page net l o w).1 with
      | inl (response, summaries) =>
          [setList summaries st3;
           setTotalCount (lr_count response) (setList summaries st3);
           setSummariesById (index_summaries summaries)
             (setTotalCount (lr_count response) (setList summaries st3))]
      | inr error =>
          [setListError (Some (extractErrorMessage type_error_message error)) st3]
      end in
    {| returned := ();
       commits := ([setIsListLoading true st;
                    setListError None (setIsListLoading true st); st3]
                   ++ body
                   ++ [setIsListLoading false (default st3 (last body))])%list;
       world := (load_page net l o w).2 |}.
Proof.
  unfold loadList. cbn [length Z.of_nat Z.ltb Z.compare].
  by destruct (load_page net _ _ w) as [[[response summaries]|e] w'].
Qed.

(** C2, as the code has it: when the index fetch or the summary fetch
    of any returned name fails during a [loadList] that got past its
    guard, then in every store the call commits, and so in the store
    it leaves, the list, the total count, the summary map and the
    detail map are the ones from before the call; the error slot holds
    the message of the failure that made the load fail; the loading
    flag is false (as it is after every call that got past the guard,
    failed or not); and the last list-load parameters are the requested
    limit and offset. *)
Theorem loadList_failure_keeps_catalog captured limit offset st w :
  let l := default 1000 limit in
  let o := default 0 offset in
  let index := fetchPokemonList net (Some l) (Some o) w in
  let run := loadList type_error_message net captured limit offset st w in
  captured = [] →
  isListLoading (store_after st run) = false
  ∧ (((∃ e, result_bind index.1 as_list = inr e)
      ∨ (∃ response result e,
           result_bind index.1 as_list = inl response
           ∧ result ∈ lr_results response
           ∧ (fetchPokemonSummary net (ByName (res_name result)) index.2).1
             = inr e)) →
     (∀ s, s ∈ commits run →
        pokemonList s = pokemonList st ∧ totalCount s = totalCount st
        ∧ summariesById s = summariesById st ∧ detailsById s = detailsById st)
     ∧ pokemonList (store_after st run) = pokemonList st
     ∧ totalCount (store_after st run) = totalCount st
     ∧ summariesById (store_after st run) = summariesById st
     ∧ detailsById (store_after st run) = detailsById st
     ∧ (∃ e, listError (store_after st run)
             = Some (extractErrorMessage type_error_message e)
          ∧ (result_bind index.1 as_list = inr e
             ∨ ∃ response result,
                 result_bind index.1 as_list = inl response
                 ∧ result ∈ lr_results response
                 ∧ (fetchPokemonSummary net (ByName (res_name result)) index.2).1
                   = inr e))
     ∧ listParams (store_after st run) = {| limit := l; offset := o |}).
Proof.
  intros l o index run ->. subst run.
  rewrite loadList_unguarded. fold l o. cbv zeta.
  split.
  - unfold store_after. cbn [commits].
    by destruct (load_page net l o w).1 as [[response summaries]|e].
  - intros Hfail.
    destruct (load_page_rejected net l o w Hfail) as [e He].
    pose proof (load_page_rejects_with net l o w e He) as Hwhy.
    rewrite He. unfold store_after. cbn [commits].
    split; [|by eauto 10].
    intros s Hs. simpl in Hs.
    repeat (apply elem_of_cons in Hs as [->|Hs]; [done|]).
    by apply elem_of_nil in Hs.
Qed.

(** C4: when [getDetail] fulfils with a detail, the store it leaves
    has that detail under the detail's id in [detailsById] and an entry
    under the same id in [summariesById] with the detail's id, name,
    sprite and types. *)
Theorem getDetail_detail_implies_summary idOrName st w detail :
  returned (getDetail net idOrName st w) = inl detail →
  let st' := store_after st (getDetail net idOrName st w) in
  detailsById st' !! d_id detail = Some detail
  ∧ ∃ entry,
      summariesById st' !! d_id detail = Some entry
      ∧ s_id (as_summary entry) = d_id detail
      ∧ s_name (as_summary entry) = d_name detail
      ∧ s_sprite (as_summary entry) = d_sprite detail
      ∧ s_types (as_summary entry) = d_types detail.
Proof.
  unfold getDetail.
  destruct (fetchPokemonDetail net idOrName w) as [fetched w'].
  cbn [returned]. intros ->. unfold store_after. simpl.
  split; [apply lookup_insert_eq|].
  exists (DetailAsSummary detail). split; [apply lookup_insert_eq|done].
Qed.

(** C5, as the code has it: the guard of [loadList] reads the list that
    the function object captured when it was built.  When that list is
    non-empty the call runs no setter and leaves the world as it was, so
    no request is sent and no state changes.  The function object that a
    render hands out has captured a list as long as the current one, so
    through it the call does nothing whenever the current list is
    non-empty.  Hence, starting from an empty list and calling each time
    through the function object handed out at that time, once a first
    call has left a non-empty list, a second call, whenever it comes,
    sends nothing and changes nothing. *)
Theorem loadList_once_loaded_is_noop captured captured' limit offset limit' offset'
    st w :
  (captured ≠ [] →
     loadList type_error_message net captured limit offset st w
     = {| returned := (); commits := []; world := w |})
  ∧ (handed_out_by st captured → pokemonList st ≠ [] →
     loadList type_error_message net captured limit offset st w
     = {| returned := (); commits := []; world := w |})
  ∧ (pokemonList st = [] → handed_out_by st captured →
     let first := loadList type_error_message net captured limit offset st w in
     pokemonList (store_after st first) ≠ [] →
     handed_out_by (store_after st first) captured' →
     ∀ dt,
       let second := loadList type_error_message net captured' limit' offset'
                       (store_after st first) (elapse dt (world first)) in
       commits second = []
       ∧ sent (world second) = sent (world first)
       ∧ cache (world second) = cache (world first)
       ∧ store_after (store_after st first) second = store_after st first).
Proof.
  assert (Hcurrent : ∀ st0 seen,
            handed_out_by st0 seen → pokemonList st0 ≠ [] → seen ≠ []).
  { unfold handed_out_by. intros st0 seen Hlength Hlist ->.
    by destruct (pokemonList st0). }
  split; [apply loadList_guarded|]. split.
  - intros Hout Hlist. apply loadList_guarded. by apply (Hcurrent st).
  - intros _ _ first Hloaded Hout dt second. subst second.
    by rewrite loadList_guarded by (by eapply Hcurrent).
Qed.

Lemma load_page_first_request limit offset w :
  fresh_entry DEFAULT_TTL (cacheKey "/pokemon" (Some (list_params limit offset))) w
  = None →
  ∃ later,
    sent (load_page net limit offset w).2
    = (sent w ++ {| req_url := "/pokemon";
                    req_params := Some (list_params limit offset) |} :: later)%list.
Proof.
  intros Hmiss. unfold load_page, fetchPokemonList, getCached, list_call.
  cbn [fst snd from_option id]. rewrite Hmiss. unfold request_and_store.
  destruct (outcome (net (clock w) _)) as [payload|e]; cbn [result_bind].
  - destruct (as_list payload) as [response|e].
    + unfold fetchPokemonSummaries, land_all. cbn [snd sent].
      rewrite <- app_assoc. eauto.
    + cbn [snd sent]. eauto.
  - cbn [snd sent]. eauto.
Qed.

(** The index fetch is the first step of a page load: what the load
    sends comes after what the index fetch has sent, and when the index
    fetch rejects the load stops there with its reason. *)
Lemma load_page_starts_with_index limit offset w :
  let index := fetchPokemonList net (Some limit) (Some offset) w in
  sent index.2 `prefix_of` sent (load_page net limit offset w).2
  ∧ ∀ e, index.1 = inr e →
      load_page net limit offset w = (inr e, index.2).
Proof.
  unfold load_page.
  destruct (fetchPokemonList net (Some limit) (Some offset) w) as [payload w1].
  cbn [fst snd]. split.
  - destruct (result_bind payload as_list) as [response|e]; [|done].
    unfold fetchPokemonSummaries, land_all. cbn [snd sent].
    by apply prefix_app_r.
  - by intros e ->.
Qed.

(** C10, as the code has it: the provider starts with [listParams =
    {limit: 1000, offset: 0}]; [fetchPokemonList()] without arguments is
    the cached fetch of ["/pokemon"] with the parameter object [{limit:
    1000, offset: 0}]; and a [loadList()] without arguments that gets
    past its guard behaves as [loadList(1000, 0)], records exactly 1000
    and 0 as the last list-load parameters, and starts with that cached
    fetch: what it sends comes after what that fetch sends, it fails
    with the reason of that fetch when that fetch fails, and unless the
    cache still holds that page the first request to go out is the one
    for ["/pokemon"] with [limit = 1000] and [offset = 0]. *)
Theorem loadList_default_params captured st w :
  let page : option Params := Some [("limit", JNumber 1000); ("offset", JNumber 0)] in
  let index := getCached net "/pokemon" page None w in
  listParams initial_store = {| limit := 1000; offset := 0 |}
  ∧ fetchPokemonList net None None w = index
  ∧ (captured = [] →
     let run := loadList type_error_message net captured None None st w in
     run = loadList type_error_message net captured (Some 1000) (Some 0) st w
     ∧ listParams (store_after st run) = {| limit := 1000; offset := 0 |}
     ∧ sent index.2 `prefix_of` sent (world run)
     ∧ (∀ e, index.1 = inr e →
          world run = index.2
          ∧ listError (store_after st run)
            = Some (extractErrorMessage type_error_message e))
     ∧ (fresh_entry DEFAULT_TTL (cacheKey "/pokemon" page) w = None →
        ∃ later,
          sent (world run)
          = (sent w ++ {| req_url := "/pokemon"; req_params := page |}
                    :: later)%list)).
Proof.
  intros page index. split; [done|]. split; [done|].
  intros -> run. subst run.
  rewrite loadList_unguarded. cbn [default]. cbv zeta.
  split; [by rewrite loadList_unguarded|].
  destruct (load_page_starts_with_index 1000 0 w) as [Hprefix Hstop].
  split; [|split; [exact Hprefix|split]].
  - unfold store_after. cbn [commits].
    by destruct (load_page net 1000 0 w).1 as [[response summaries]|e].
  - intros e He. rewrite (Hstop e He). by unfold store_after.
  - cbn [world]. apply load_page_first_request.
Qed.
(** On the way to success nothing partial shows either: the list of
    every committed store is the prior list or the whole page. *)
Lemma loadList_list_all_or_nothing captured limit offset st w s :
  s ∈ commits (loadList type_error_message net captured limit offset st w) →
  pokemonList s = pokemonList st
  ∨ ∃ response,
      (load_page net (default 1000 limit) (default 0 offset) w).1
      = inl (response, pokemonList s).
Proof.
  destruct captured as [|summary rest].
  - rewrite loadList_unguarded. cbv zeta. cbn [commits].
    destruct (load_page net _ _ w).1 as [[response summaries]|e]; intros Hs;
      simpl in Hs;
      repeat (apply elem_of_cons in Hs as [->|Hs]; [by eauto|]);
      by apply elem_of_nil in Hs.
  - rewrite loadList_guarded by done.
    intros Hs. by apply elem_of_nil in Hs.
Qed.

Lemma index_summaries_covers summaries prev summary :
  summary ∈ summaries →
  ∃ latest, latest ∈ summaries ∧ s_id latest = s_id summary
    ∧ index_summaries summaries prev !! s_id summary = Some (PlainSummary latest).
Proof.
  induction summaries as [|x summaries IH] using rev_ind; intros Hin.
  - by apply elem_of_nil in Hin.
  - unfold index_summaries. rewrite foldl_app. cbn [foldl].
    fold (index_summaries summaries prev).
    destruct (decide (s_id x = s_id summary)) as [Heq|Hne].
    + exists x. rewrite Heq, lookup_insert_eq.
      split; [|done]. apply elem_of_app. right. apply list_elem_of_here.
    + apply elem_of_app in Hin as [Hin|Hin].
      * destruct (IH Hin) as (latest & Hlatest & Hid & Hlookup).
        exists latest. rewrite lookup_insert_ne by done.
        split; [|done]. apply elem_of_app. by left.
      * apply list_elem_of_singleton in Hin as ->. done.
Qed.

(** A load that succeeds commits the page, the count and an index entry
    for every member of the list under the member's own id. *)
Lemma loadList_success limit offset st w response summaries :
  (load_page net (default 1000 limit) (default 0 offset) w).1
  = inl (response, summaries) →
  let st' := store_after st (loadList type_error_message net [] limit offset st w) in
  pokemonList st' = summaries
  ∧ totalCount st' = lr_count response
  ∧ isListLoading st' = false
  ∧ listError st' = None
  ∧ ∀ summary, summary ∈ summaries →
      ∃ entry, summariesById st' !! s_id summary = Some entry
               ∧ s_id (as_summary entry) = s_id summary.
Proof.
  intros Hpage. rewrite loadList_unguarded. cbv zeta.
  rewrite Hpage. unfold store_after. cbn.
  do 4 (split; [done|]).
  intros summary Hin.
  destruct (index_summaries_covers summaries (summariesById st) summary Hin)
    as (latest & _ & Hid & Hlookup).
  exists (PlainSummary latest). by rewrite Hlookup.
Qed.
End AggregateStoreProperties.

Lemma loadList_failure_keeps_catalog_witness :
  isListLoading (store_after initial_store offline_load) = false
  ∧ pokemonList (store_after initial_store offline_load) = []
  ∧ totalCount (store_after initial_store offline_load) = 0
  ∧ (∃ e, listError (store_after initial_store offline_load)
          = Some (extractErrorMessage sample_messages e))
  ∧ listParams (store_after initial_store offline_load)
    = {| limit := 1000; offset := 0 |}.
Proof.
  destruct (loadList_failure_keeps_catalog sample_messages offline_net [] None None
              initial_store cold_world eq_refl) as [Hflag Hfail].
  destruct Hfail as (_ & Hlist & Hcount & _ & _ & (e & He & _) & Hparams).
  { left. exists (ErrorObject "Network Error"). reflexivity. }
  split; [exact Hflag|]. split; [exact Hlist|]. split; [exact Hcount|].
  split; [by exists e|exact Hparams].
Defined.

(** C2 as stated fails in one respect: a failed load does touch the
    prior state outside the error slot, since the requested limit and
    offset replace the last list-load parameters before the first fetch
    is awaited. *)
Lemma loadList_failure_overwrites_listParams :
  pokemonList initial_store = []
  ∧ (fetchPokemonList offline_net (Some 20) (Some 40) cold_world).1
    = inr (ErrorObject "Network Error")
  ∧ listError (store_after initial_store offline_load_second_page)
    = Some "Network Error"
  ∧ listParams initial_store = {| limit := 1000; offset := 0 |}
  ∧ listParams (store_after initial_store offline_load_second_page)
    = {| limit := 20; offset := 40 |}
  ∧ listParams (store_after initial_store offline_load_second_page)
    ≠ listParams initial_store.
Proof.
  repeat split; try reflexivity.
  intros H. vm_compute in H. discriminate.
Qed.

Lemma getDetail_detail_implies_summary_witness :
  detailsById (store_after initial_store sample_detail) !! 1
  = Some (mapToDetail bulbasaur bulbasaur_species)
  ∧ ∃ entry,
      summariesById (store_after initial_store sample_detail) !! 1 = Some entry
      ∧ s_id (as_summary entry) = 1
      ∧ s_name (as_summary entry) = "bulbasaur"
      ∧ s_sprite (as_summary entry) = Some "artwork.png"
      ∧ s_types (as_summary entry) = ["grass"; "poison"].
Proof.
  apply (getDetail_detail_implies_summary sample_net (ById 1) initial_store
           cold_world (mapToDetail bulbasaur bulbasaur_species)).
  vm_compute. reflexivity.
Defined.

Lemma loadList_once_loaded_is_noop_witness :
  loadList sample_messages sample_net (pokemonList sample_loaded) None None
    sample_loaded (world sample_load)
  = {| returned := (); commits := []; world := world sample_load |}
  ∧ commits sample_reload = []
  ∧ sent (world sample_reload) = sent (world sample_load)
  ∧ cache (world sample_reload) = cache (world sample_load)
  ∧ store_after sample_loaded sample_reload = sample_loaded.
Proof.
  assert (Hloaded : pokemonList sample_loaded ≠ []).
  { intros H. vm_compute in H. discriminate. }
  split.
  - apply (loadList_once_loaded_is_noop sample_messages sample_net
             (pokemonList sample_loaded) [] None None None None
             sample_loaded (world sample_load)); [reflexivity|exact Hloaded].
  - apply (loadList_once_loaded_is_noop sample_messages sample_net []
             (pokemonList sample_loaded) None None (Some 20) (Some 40)
             initial_store cold_world);
      [reflexivity|reflexivity|exact Hloaded|reflexivity].
Defined.

(** C5 as stated fails in both halves.  The first: a function object
    built while the list was empty, called when the store's list is no
    longer empty, is not held back by the guard; it runs all seven
    setters and sends the index request and the item request again.  The
    second: after a first call that failed the list is still empty, so
    the second call is not held back either; it runs the setters again
    and sends the index request again. *)
Lemma loadList_second_call_after_failure :
  (pokemonList sample_loaded = [mapToSummary bulbasaur]
   ∧ length (sent (world sample_load)) = 2%nat
   ∧ length (commits stale_reload) = 7%nat
   ∧ length (sent (world stale_reload)) = 4%nat
   ∧ listParams (store_after sample_loaded stale_reload)
     = {| limit := 20; offset := 40 |})
  ∧ pokemonList initial_store = []
  ∧ sent (world offline_load) = [index_request]
  ∧ pokemonList (store_after initial_store offline_load) = []
  ∧ sent (world offline_reload) = [index_request; index_request]
  ∧ length (commits offline_reload) = 5%nat.
Proof. repeat split; vm_compute; reflexivity. Qed.

Lemma loadList_default_params_witness :
  sample_load
  = loadList sample_messages sample_net [] (Some 1000) (Some 0) initial_store
      cold_world
  ∧ listParams (store_after initial_store sample_load)
    = {| limit := 1000; offset := 0 |}
  ∧ (∃ later,
       sent (world sample_load)
       = {| req_url := "/pokemon";
            req_params := Some [("limit", JNumber 1000); ("offset", JNumber 0)] |}
         :: later)
  ∧ world offline_load
    = (getCached offline_net "/pokemon"
         (Some [("limit", JNumber 1000); ("offset", JNumber 0)]) None cold_world).2
  ∧ listError (store_after initial_store offline_load) = Some "Network Error".
Proof.
  destruct (loadList_default_params sample_messages sample_net [] initial_store
              cold_world) as (_ & _ & Hrun).
  destruct (Hrun eq_refl) as (Hsame & Hparams & _ & _ & Hsent).
  destruct Hsent as [later Hlater]; [reflexivity|].
  destruct (loadList_default_params sample_messages offline_net [] initial_store
              cold_world) as (_ & _ & Hoffline).
  destruct (Hoffline eq_refl) as (_ & _ & _ & Hfail & _).
  destruct (Hfail (ErrorObject "Network Error") eq_refl) as [Hworld Herror].
  split; [exact Hsame|]. split; [exact Hparams|].
  split; [exists later; exact Hlater|]. split; [exact Hworld|exact Herror].
Defined.

(** C10 as stated fails when the guard holds the call back: after a
    load of the page with limit 20 and offset 40, a [loadList()] without
    arguments asks for nothing and records nothing, so the last
    list-load parameters stay 20 and 40 and no request with limit 1000
    and offset 0 is ever sent. *)
Lemma loadList_held_back_keeps_listParams :
  pokemonList page_loaded = [mapToSummary bulbasaur]
  ∧ listParams page_loaded = {| limit := 20; offset := 40 |}
  ∧ commits default_reload = []
  ∧ listParams (store_after page_loaded default_reload)
    = {| limit := 20; offset := 40 |}
  ∧ sent (world default_reload)
    = [{| req_url := "/pokemon";
          req_params := Some [("limit", JNumber 20); ("offset", JNumber 40)] |};
       bulbasaur_request].
Proof. repeat split; vm_compute; reflexivity. Qed.

(** * Further properties *)

(** ** [extractGenus] *)

(** X1: [extractGenus] gives the genus text, as it is, of the first
    genus entry whose language is "en"; it is absent when the species
    has no [genera] property and when no entry is English; and a detail
    carries exactly this value as its genus. *)
Theorem extractGenus_first_english (species : PokemonSpecies) :
  (sp_genera species = None → extractGenus species = None)
  ∧ (∀ before entry after,
       sp_genera species = Some (before ++ entry :: after)%list →
       Forall (λ e, res_name (g_language e) ≠ "en") before →
       res_name (g_language entry) = "en" →
       extractGenus species = Some (genus entry))
  ∧ (∀ genera,
       sp_genera species = Some genera →
       Forall (λ e, res_name (g_language e) ≠ "en") genera →
       extractGenus species = None)
  ∧ (∀ pokemon, d_genus (mapToDetail pokemon species) = extractGenus species).
Proof.
  unfold extractGenus. split; [|split; [|split]].
  - by intros ->.
  - intros before entry after -> Hbefore Hen. simpl.
    rewrite find_first_match; [done| |by apply String.eqb_eq].
    eapply Forall_impl; [exact Hbefore|].
    intros e He. by apply String.eqb_neq.
  - intros genera -> Hnone. simpl.
    rewrite find_no_match; [done|].
    eapply Forall_impl; [exact Hnone|].
    intros e He. by apply String.eqb_neq.
  - intros pokemon. simpl. unfold extractGenus.
    by destruct (sp_genera species ≫= _).
Qed.

Lemma extractGenus_first_english_witness :
  extractGenus bulbasaur_species = Some "Seed Pokemon".
Proof.
  destruct (extractGenus_first_english bulbasaur_species) as (_ & Hfirst & _).
  apply (Hfirst [] {| genus := "Seed Pokemon"; g_language := resource "en" |} []).
  - reflexivity.
  - constructor.
  - reflexivity.
Defined.

(** ** Which calls share a cache key *)

Lemma cacheKey_shape url params :
  cacheKey url params
  = "{" ++ quote "url" ++ ":" ++ quote url
        ++ match params with
           | Some props =>
               "," ++ quote "params" ++ ":" ++ stringify_object serialize props ++ "}"
           | None => "}"
           end.
Proof.
  unfold cacheKey. unfold stringify_object at 1.
  destruct params as [props|]; cbn [from_option members serialize].
  - rewrite own_property_order_plain by (by repeat constructor).
    cbn [map join]. unfold member_text. cbn [fst snd].
    by rewrite !append_assoc.
  - rewrite own_property_order_plain by (by repeat constructor).
    cbn [map join]. unfold member_text. cbn [fst snd].
    by rewrite !append_assoc.
Qed.

Lemma cacheKey_inv url url' params params' :
  cacheKey url params = cacheKey url' params' →
  url = url'
  ∧ match params with
    | Some props =>
        "," ++ quote "params" ++ ":" ++ stringify_object serialize props ++ "}"
    | None => "}"
    end
    = match params' with
      | Some props =>
          "," ++ quote "params" ++ ":" ++ stringify_object serialize props ++ "}"
      | None => "}"
      end.
Proof.
  rewrite !cacheKey_shape. intros H.
  apply append_inv_head in H. rewrite <- !append_assoc in H.
  rewrite !append_assoc in H.
  apply append_inv_head, append_inv_head in H.
  by apply quote_delimited in H.
Qed.

(** X2: calls for different endpoint strings never share a cache key,
    whatever their parameters.  In particular the keys of the item
    fetcher, of the species fetcher and of the list fetcher are pairwise
    different for all arguments, and two different numeric ids give
    different item keys. *)
Theorem cache_keys_separate_endpoints :
  (∀ url url' params params',
     url ≠ url' → cacheKey url params ≠ cacheKey url' params')
  ∧ (∀ a b, call_key (pokemon_call a) ≠ call_key (species_call b))
  ∧ (∀ a limit offset, call_key (pokemon_call a) ≠ call_key (list_call limit offset))
  ∧ (∀ b limit offset, call_key (species_call b) ≠ call_key (list_call limit offset))
  ∧ (∀ i j, i ≠ j →
       call_key (pokemon_call (ById i)) ≠ call_key (pokemon_call (ById j))).
Proof.
  assert (Hsep : ∀ url url' params params',
            url ≠ url' → cacheKey url params ≠ cacheKey url' params').
  { intros url url' params params' Hne H. by apply cacheKey_inv in H as [? _]. }
  split; [exact Hsep|].
  unfold call_key, pokemon_call, species_call, list_call. cbn [fst snd].
  repeat split; intros; apply Hsep; simpl; try discriminate.
  intros [= Hurl]. by apply number_to_string_inj in Hurl.
Qed.

Lemma cache_keys_separate_endpoints_witness :
  cacheKey "/pokemon/1" None ≠ cacheKey "/pokemon/10" None
  ∧ call_key (pokemon_call (ById 1)) ≠ call_key (pokemon_call (ById 10)).
Proof.
  destruct cache_keys_separate_endpoints as (Hsep & _ & _ & _ & Hids).
  split.
  - apply Hsep. discriminate.
  - apply Hids. discriminate.
Defined.

Lemma serialize_undefined v : serialize v = None ↔ is_undefined v = true.
Proof. by destruct v. Qed.

Lemma members_defined_props params :
  members serialize (defined_props params) = members serialize params.
Proof.
  induction params as [|[k v] params IH]; [done|].
  unfold defined_props in *. rewrite filter_cons. cbn [snd].
  destruct (is_undefined v) eqn:Hv.
  - apply serialize_undefined in Hv.
    rewrite decide_False by done. cbn [members]. by rewrite Hv.
  - rewrite decide_True by done. cbn [members]. by rewrite IH.
Qed.

(** X3: a call without parameters never shares its key with a call that
    passes a parameter object, even an empty one; and a property whose
    value is [undefined] does not reach the key, so two parameter objects
    that differ only in such properties share one cache entry. *)
Theorem cacheKey_params_presence (url : string) (params : Params) :
  cacheKey url None ≠ cacheKey url (Some params)
  ∧ cacheKey url (Some params) = cacheKey url (Some (defined_props params)).
Proof.
  split.
  - intros H. apply cacheKey_inv in H as [_ H]. simpl in H. discriminate.
  - unfold cacheKey, stringify_object. simpl.
    unfold stringify_object. by rewrite members_defined_props.
Qed.

Example cacheKey_undefined_offset :
  cacheKey "/pokemon" (Some [("limit", JNumber 20); ("offset", JUndefined)])
  = cacheKey "/pokemon" (Some [("limit", JNumber 20)]).
Proof. reflexivity. Qed.

(** ** What a cached fetch does to the world *)

Section MoreTransportProperties.
Context {Data : Type}.
Variable net : Network Data.

Implicit Types (w : World Data) (url : string) (params : option Params).

(** X4: a cached fetch touches the cache under its own key only, never
    removes an entry (an expired one stays until it is overwritten),
    sends at most its own request, does not set the clock back, and
    keeps every timestamp in the table at or before the current time. *)
Theorem getCached_world_grows url params (ttl : option Z) w :
  let w' := (getCached net url params ttl w).2 in
  let req := {| req_url := url; req_params := params |} in
  (∀ key, key ≠ cacheKey url params → cache w' !! key = cache w !! key)
  ∧ (∀ key, is_Some (cache w !! key) → is_Some (cache w' !! key))
  ∧ (sent w' = sent w ∨ sent w' = (sent w ++ [req])%list)
  ∧ clock w ≤ clock w'
  ∧ ((∀ key entry, cache w !! key = Some entry → timestamp entry ≤ clock w) →
     ∀ key entry, cache w' !! key = Some entry → timestamp entry ≤ clock w').
Proof.
  intros w' req. subst w'. unfold getCached.
  destruct (fresh_entry _ _ w) as [hit|]; cbn [snd].
  { repeat split; auto with lia. }
  unfold request_and_store. fold req.
  destruct (outcome (net (clock w) req)) as [payload|e]; cbn [snd cache sent clock].
  - split; [by intros key Hkey; rewrite lookup_insert_ne|].
    split.
    { intros key Hsome.
      destruct (decide (cacheKey url params = key)) as [<-|Hne];
        [rewrite lookup_insert_eq; eauto|by rewrite lookup_insert_ne]. }
    split; [by right|]. split; [lia|].
    intros Hpast key entry.
    destruct (decide (cacheKey url params = key)) as [<-|Hne].
    + rewrite lookup_insert_eq. intros [= <-]. simpl. lia.
    + rewrite lookup_insert_ne by done. intros Hentry.
      specialize (Hpast key entry Hentry). lia.
  - split; [done|]. split; [done|]. split; [by right|]. split; [lia|].
    intros Hpast key entry Hentry. specialize (Hpast key entry Hentry). lia.
Qed.

(** X5: what a cached fetch returns is the payload of an entry that is
    still younger than the ttl, or the payload the network has just
    answered with: an expired entry is never served.  When the entry has
    expired and the request fails, the call fails with the reason of the
    request, and the expired entry stays in the table as it was. *)
Theorem getCached_expired_never_served url params (ttl : option Z) w :
  let key := cacheKey url params in
  let limit := default DEFAULT_TTL ttl in
  let req := {| req_url := url; req_params := params |} in
  (∀ payload,
     (getCached net url params ttl w).1 = inl payload →
     (∃ entry, cache w !! key = Some entry
               ∧ clock w - timestamp entry < limit ∧ data entry = payload)
     ∨ ((∀ entry, cache w !! key = Some entry → limit ≤ clock w - timestamp entry)
        ∧ outcome (net (clock w) req) = inl payload))
  ∧ (∀ entry e,
       cache w !! key = Some entry → limit ≤ clock w - timestamp entry →
       outcome (net (clock w) req) = inr e →
       (getCached net url params ttl w).1 = inr e
       ∧ cache (getCached net url params ttl w).2 !! key = Some entry).
Proof.
  intros key limit req. split.
  - intros payload. unfold getCached. fold key limit req.
    destruct (fresh_entry limit key w) as [hit|] eqn:Hfresh.
    + intros [= <-]. left. by apply fresh_entry_inv.
    + unfold request_and_store.
      destruct (outcome (net (clock w) req)) as [got|e] eqn:Hout; [|done].
      intros [= <-]. right. split; [|done].
      intros entry Hentry. unfold fresh_entry in Hfresh. rewrite Hentry in Hfresh.
      destruct (Z.ltb_spec (clock w - timestamp entry) limit); [done|lia].
  - intros entry e Hentry Hstale Hfail. unfold getCached. fold key limit req.
    rewrite fresh_entry_None.
    + unfold request_and_store. by rewrite Hfail.
    + intros entry' Hentry'. rewrite Hentry in Hentry'. by injection Hentry' as <-.
Qed.
End MoreTransportProperties.

Lemma getCached_world_grows_witness :
  ∃ entry,
    cache missing_fetch.2 !! cacheKey "/pokemon/bulbasaur" None = Some entry
    ∧ timestamp entry ≤ clock missing_fetch.2.
Proof.
  destruct (getCached_world_grows sample_net "/pokemon/missingno" None None
              warm_world) as (_ & Hkept & _ & _ & Hpast).
  destruct (Hkept (cacheKey "/pokemon/bulbasaur" None)) as [entry Hentry].
  { simpl. rewrite lookup_singleton_eq. eauto. }
  exists entry. split; [exact Hentry|].
  apply (Hpast) with (key := cacheKey "/pokemon/bulbasaur" None); [|exact Hentry].
  intros key old Hold. simpl in Hold.
  apply lookup_singleton_Some in Hold as [_ <-]. simpl. lia.
Defined.

Lemma getCached_expired_never_served_witness :
  stale_fetch_offline.1 = inr (ErrorObject "Network Error")
  ∧ cache stale_fetch_offline.2 !! cacheKey "/pokemon/bulbasaur" None
    = Some {| timestamp := 1699999998000; data := PokemonPayload bulbasaur |}.
Proof.
  destruct (getCached_expired_never_served offline_net "/pokemon/bulbasaur" None
              None stale_world) as (_ & Hstale).
  apply Hstale.
  - apply lookup_singleton_eq.
  - vm_compute. discriminate.
  - reflexivity.
Defined.

(** ** [getSummary] and [getDetail] *)

Section SingleItemProperties.
Variable net : Network Payload.

Implicit Types (w : World Payload) (st : Store).

(** X6: when [getSummary] fulfils, the summary is the mapping of the
    item the fetch returned, and the store it leaves differs from the
    one before only in [summariesById], where the summary now sits under
    its own id in place of whatever was there; when it rejects, no
    setter runs and the store is the one from before.  The world is the
    one the item fetch leaves in both cases. *)
Theorem getSummary_merges idOrName st w :
  let run := getSummary net idOrName st w in
  let st' := store_after st run in
  (∀ summary,
     returned run = inl summary →
     (∃ pokemon,
        (fetchPokemonByNameOrId net idOrName w).1 = inl (PokemonPayload pokemon)
        ∧ summary = mapToSummary pokemon)
     ∧ summariesById st' = <[s_id summary := PlainSummary summary]> (summariesById st)
     ∧ detailsById st' = detailsById st
     ∧ pokemonList st' = pokemonList st
     ∧ totalCount st' = totalCount st
     ∧ isListLoading st' = isListLoading st
     ∧ listError st' = listError st
     ∧ listParams st' = listParams st)
  ∧ (∀ e, returned run = inr e →
       commits run = [] ∧ st' = st
       ∧ ((fetchPokemonByNameOrId net idOrName w).1 = inr e
          ∨ e = TypeErrorObject PokemonShape))
  ∧ world run = (fetchPokemonByNameOrId net idOrName w).2.
Proof.
  intros run st'. subst st' run. unfold getSummary, fetchPokemonSummary.
  destruct (fetchPokemonByNameOrId net idOrName w) as [[payload|e0] w'];
    cbn [result_bind returned commits world fst snd].
  - unfold summary_of_payload.
    destruct payload as [response|pokemon|species];
      cbn [as_pokemon result_map result_bind].
    + split; [done|]. split; [|done]. intros e [= <-]. auto.
    + split; [|by split].
      intros summary [= <-]. unfold store_after. cbn. eauto 10.
    + split; [done|]. split; [|done]. intros e [= <-]. auto.
  - split; [done|]. split; [|done]. intros e [= <-]. auto.
Qed.

Lemma promise_all2_inv {A B} (a : Settled A) (b : Settled B) :
  match promise_all2 a b with
  | inl (x, y) => settlement a = inl x ∧ settlement b = inl y
  | inr e => settlement a = inr e ∨ settlement b = inr e
  end.
Proof.
  unfold promise_all2.
  destruct (settlement a) as [x|ea], (settlement b) as [y|eb]; auto.
  destruct (settled_at b <? settled_at a); auto.
Qed.

Lemma fetchPokemonDetail_outcome idOrName w :
  match (fetchPokemonDetail net idOrName w).1 with
  | inl detail =>
      ∃ pokemon species,
        (fetchPokemonByNameOrId net idOrName w).1 = inl (PokemonPayload pokemon)
        ∧ (fetchPokemonSpeciesByNameOrId net idOrName w).1
          = inl (SpeciesPayload species)
        ∧ detail = mapToDetail pokemon species
  | inr e =>
      (fetchPokemonByNameOrId net idOrName w).1 = inr e
      ∨ (fetchPokemonSpeciesByNameOrId net idOrName w).1 = inr e
      ∨ ∃ item species,
          (fetchPokemonByNameOrId net idOrName w).1 = inl item
          ∧ (fetchPokemonSpeciesByNameOrId net idOrName w).1 = inl species
          ∧ ((e = TypeErrorObject PokemonShape
              ∧ ∀ pokemon, item ≠ PokemonPayload pokemon)
             ∨ (e = TypeErrorObject SpeciesShape
                ∧ (∃ pokemon, item = PokemonPayload pokemon)
                ∧ ∀ record, species ≠ SpeciesPayload record))
  end.
Proof.
  unfold fetchPokemonDetail, fetchPokemonByNameOrId, fetchPokemonSpeciesByNameOrId.
  cbn [fst].
  pose proof (promise_all2_inv
                (settle (clock w) (take_off net None w (pokemon_call idOrName)))
                (settle (clock w) (take_off net None w (species_call idOrName))))
    as Hboth.
  unfold settle in Hboth at 3 4 5 6. cbn [settlement] in Hboth.
  rewrite !take_off_outcome in Hboth.
  destruct (promise_all2 _ _) as [[p s]|e]; cbn [result_bind fst snd].
  - destruct Hboth as [Hp Hs].
    destruct p as [?|pokemon|?]; cbn [as_pokemon result_bind];
      try (right; right; eexists _, _; split; [exact Hp|]; split; [exact Hs|];
           left; by split).
    destruct s as [?|?|species]; cbn [as_species result_bind];
      try (right; right; eexists _, _; split; [exact Hp|]; split; [exact Hs|];
           right; split; [done|]; split; [by eauto|done]).
    eauto.
  - tauto.
Qed.

(** X7: a [getDetail] that fulfils returns the detail mapped from the
    item and the species that the two fetches, both started in the world
    before the call, returned; it puts the detail under its own id in
    both maps and leaves every other entry and every other cell of the
    store alone.  A [getDetail] that rejects runs no setter: nothing
    partial is committed.  Its reason is that of the item fetch or that
    of the species fetch or, when both fetches fulfil but with a
    document that is not of the shape of its type, the [TypeError] of
    reading that document, the item before the species. *)
Theorem getDetail_all_or_nothing idOrName st w :
  let run := getDetail net idOrName st w in
  let st' := store_after st run in
  (∀ detail,
     returned run = inl detail →
     (∃ pokemon species,
        (fetchPokemonByNameOrId net idOrName w).1 = inl (PokemonPayload pokemon)
        ∧ (fetchPokemonSpeciesByNameOrId net idOrName w).1
          = inl (SpeciesPayload species)
        ∧ detail = mapToDetail pokemon species)
     ∧ detailsById st' = <[d_id detail := detail]> (detailsById st)
     ∧ summariesById st'
       = <[d_id detail := DetailAsSummary detail]> (summariesById st)
     ∧ pokemonList st' = pokemonList st
     ∧ totalCount st' = totalCount st
     ∧ isListLoading st' = isListLoading st
     ∧ listError st' = listError st
     ∧ listParams st' = listParams st)
  ∧ (∀ e, returned run = inr e →
       commits run = [] ∧ st' = st
       ∧ ((fetchPokemonByNameOrId net idOrName w).1 = inr e
          ∨ (fetchPokemonSpeciesByNameOrId net idOrName w).1 = inr e
          ∨ ∃ item species,
              (fetchPokemonByNameOrId net idOrName w).1 = inl item
              ∧ (fetchPokemonSpeciesByNameOrId net idOrName w).1 = inl species
              ∧ ((e = TypeErrorObject PokemonShape
                  ∧ ∀ pokemon, item ≠ PokemonPayload pokemon)
                 ∨ (e = TypeErrorObject SpeciesShape
                    ∧ (∃ pokemon, item = PokemonPayload pokemon)
                    ∧ ∀ record, species ≠ SpeciesPayload record)))).
Proof.
  intros run st'. subst st' run. unfold getDetail.
  pose proof (fetchPokemonDetail_outcome idOrName w) as Hfetched.
  destruct (fetchPokemonDetail net idOrName w) as [[detail|e] w'];
    cbn [fst returned commits] in *.
  - split; [|done]. intros ? [= <-]. unfold store_after. cbn. eauto 10.
  - split; [done|]. intros ? [= <-]. auto.
Qed.
End SingleItemProperties.

Lemma getSummary_merges_witness :
  summariesById (store_after initial_store sample_summary)
  = <[1 := PlainSummary (mapToSummary bulbasaur)]> ∅
  ∧ commits missing_summary = []
  ∧ store_after initial_store missing_summary = initial_store.
Proof.
  destruct (getSummary_merges sample_net (ByName "bulbasaur") initial_store
              cold_world) as (Hok & _ & _).
  destruct (getSummary_merges sample_net (ByName "missingno") initial_store
              cold_world) as (_ & Hfail & _).
  destruct (Hok (mapToSummary bulbasaur)) as (_ & Hmap & _);
    [vm_compute; reflexivity|].
  destruct (Hfail not_found) as (Hnone & Hsame & _); [vm_compute; reflexivity|].
  split; [exact Hmap|]. split; [exact Hnone|exact Hsame].
Defined.

Lemma getDetail_all_or_nothing_witness :
  detailsById (store_after initial_store sample_detail)
  = <[1 := mapToDetail bulbasaur bulbasaur_species]> ∅
  ∧ commits missing_detail = []
  ∧ store_after initial_store missing_detail = initial_store
  ∧ commits mixed_up_detail = []
  ∧ store_after initial_store mixed_up_detail = initial_store.
Proof.
  destruct (getDetail_all_or_nothing sample_net (ById 1) initial_store cold_world)
    as (Hok & _).
  destruct (getDetail_all_or_nothing sample_net (ByName "missingno") initial_store
              cold_world) as (_ & Hfail).
  destruct (getDetail_all_or_nothing mixed_up_net (ById 1) initial_store cold_world)
    as (_ & Hshape).
  destruct (Hok (mapToDetail bulbasaur bulbasaur_species)) as (_ & Hmap & _);
    [vm_compute; reflexivity|].
  destruct (Hfail not_found) as (Hnone & Hsame & _); [vm_compute; reflexivity|].
  destruct (Hshape (TypeErrorObject SpeciesShape)) as (Hnone' & Hsame' & _);
    [vm_compute; reflexivity|].
  split; [exact Hmap|]. split; [exact Hnone|]. split; [exact Hsame|].
  split; [exact Hnone'|exact Hsame'].
Defined.

(** ** Calls started together *)

Section BatchProperties.
Context {Data : Type}.

Implicit Types (w : World Data) (m : gmap string (CacheEntry Data)).

Lemma insert_by_Permutation_any {A} (cmp : A → A → Z) x (l : list A) :
  insert_by cmp x l ≡ₚ x :: l.
Proof.
  induction l as [|y l IH]; simpl; [done|].
  destruct (cmp x y <=? 0); [done|].
  rewrite IH. apply Permutation_swap.
Qed.

Lemma array_sort_Permutation_any {A} (cmp : A → A → Z) (l : list A) :
  array_sort cmp l ≡ₚ l.
Proof.
  induction l as [|x l IH]; simpl; [done|].
  rewrite insert_by_Permutation_any. by f_equiv.
Qed.

(** After a run of [cache.set] the table holds, under each key, the last
    write to that key, or what it held before when there was none. *)
Lemma foldl_apply_write_lookup m (writes : list (Z * string * Data)) key :
  foldl apply_write m writes !! key
  = match last (filter (λ wr, wr.1.2 = key) writes) with
    | Some wr => Some {| timestamp := wr.1.1; data := wr.2 |}
    | None => m !! key
    end.
Proof.
  induction writes as [|wr writes IH] using rev_ind; [done|].
  rewrite foldl_app, filter_app. cbn [foldl]. unfold apply_write at 1.
  rewrite filter_cons, filter_nil.
  destruct (decide (wr.1.2 = key)) as [<-|Hne].
  - by rewrite lookup_insert_eq, last_snoc.
  - rewrite lookup_insert_ne by done. by rewrite app_nil_r.
Qed.

Lemma foldl_apply_write_is_Some m (writes : list (Z * string * Data)) key :
  is_Some (m !! key) → is_Some (foldl apply_write m writes !! key).
Proof.
  intros Hsome. rewrite foldl_apply_write_lookup.
  by destruct (last _); [eauto|].
Qed.

Lemma foldr_max_ge t0 (times : list Z) : t0 ≤ foldr Z.max t0 times.
Proof. induction times as [|t times IH]; simpl; lia. Qed.

Lemma land_all_grows (flights : list (@Flight Data)) w :
  world_grows w (land_all flights w).
Proof.
  unfold world_grows, land_all. cbn [cache sent clock].
  split; [intros key; apply foldl_apply_write_is_Some|].
  split; [by apply prefix_app_r|apply foldr_max_ge].
Qed.

Lemma getCached_grows (net : Network Data) url params ttl w :
  world_grows w (getCached net url params ttl w).2.
Proof.
  unfold getCached, world_grows.
  destruct (fresh_entry _ _ w) as [hit|]; cbn [snd]; [by auto with lia|].
  unfold request_and_store.
  destruct (outcome (net (clock w) _)) as [payload|e]; cbn [snd cache sent clock].
  - split; [|split; [by apply prefix_app_r|lia]].
    intros key Hsome.
    destruct (decide (cacheKey url params = key)) as [<-|Hne];
      [rewrite lookup_insert_eq; eauto|by rewrite lookup_insert_ne].
  - split; [done|]. split; [by apply prefix_app_r|lia].
Qed.

Lemma world_grows_trans w1 w2 w3 :
  world_grows w1 w2 → world_grows w2 w3 → world_grows w1 w3.
Proof.
  intros (Hc1 & Hs1 & Ht1) (Hc2 & Hs2 & Ht2).
  split; [auto|]. split; [by etrans|lia].
Qed.
End BatchProperties.

(** ** The world across store operations *)

Section StoreWorldProperties.
Variable type_error_message : Shape → string.
Variable net : Network Payload.

Implicit Types (w : World Payload) (st : Store) (captured : list PokemonSummary).

Lemma world_grows_refl w : world_grows w w.
Proof. by split; [|split]. Qed.

Lemma load_page_grows limit offset w :
  world_grows w (load_page net limit offset w).2.
Proof.
  unfold load_page, fetchPokemonList.
  pose proof (getCached_grows net (list_call (Some limit) (Some offset)).1
                (list_call (Some limit) (Some offset)).2 None w) as Hindex.
  destruct (getCached net _ _ None w) as [payload w1]. cbn [snd] in Hindex.
  destruct (result_bind payload as_list) as [response|e]; [|exact Hindex].
  unfold fetchPokemonSummaries. cbn [snd].
  eapply world_grows_trans; [exact Hindex|apply land_all_grows].
Qed.

(** X8: no operation of the store ever drops a cache entry, rewrites
    the log of requests already sent, or sets the clock back: the world
    after [loadList], [getSummary] and [getDetail] is a later state of
    the world before, whatever the network answers. *)
Theorem store_operations_grow_world captured limit offset idOrName st w :
  world_grows w (world (loadList type_error_message net captured limit offset st w))
  ∧ world_grows w (world (getSummary net idOrName st w))
  ∧ world_grows w (world (getDetail net idOrName st w)).
Proof.
  split; [|split].
  - destruct captured as [|summary rest].
    + rewrite loadList_unguarded. cbv zeta. cbn [world].
      apply load_page_grows.
    + rewrite loadList_guarded by done. apply world_grows_refl.
  - unfold getSummary, fetchPokemonSummary, fetchPokemonByNameOrId.
    pose proof (getCached_grows net (pokemon_call idOrName).1
                  (pokemon_call idOrName).2 None w) as Hitem.
    by destruct (getCached net _ _ None w) as [payload w1].
  - unfold getDetail, fetchPokemonDetail. cbn [world]. apply land_all_grows.
Qed.

(** X9: [getDetail] puts on the wire exactly one request for each of
    its two documents that the cache does not hold fresh, the item first
    and the species second, whether or not either of them then fails;
    with both held fresh it sends nothing. *)
Theorem getDetail_requests idOrName st w :
  sent (world (getDetail net idOrName st w))
  = (sent w
     ++ match fresh_entry DEFAULT_TTL (call_key (pokemon_call idOrName)) w with
        | Some _ => []
        | None => [call_request (pokemon_call idOrName)]
        end
     ++ match fresh_entry DEFAULT_TTL (call_key (species_call idOrName)) w with
        | Some _ => []
        | None => [call_request (species_call idOrName)]
        end)%list.
Proof.
  unfold getDetail, fetchPokemonDetail, land_all, take_off, call_key, call_request.
  cbn [world sent default from_option id].
  by destruct (fresh_entry DEFAULT_TTL (cacheKey (pokemon_call idOrName).1 _) w),
       (fresh_entry DEFAULT_TTL (cacheKey (species_call idOrName).1 _) w).
Qed.

Lemma item_species_keys_differ a b :
  call_key (pokemon_call a) ≠ call_key (species_call b).
Proof.
  unfold call_key. intros H. apply cacheKey_inv in H as [H _].
  simpl in H. discriminate.
Qed.

(** The item document of a detail fetch is in the cache afterwards. *)
Lemma fetchPokemonDetail_caches_item idOrName w payload :
  (fetchPokemonByNameOrId net idOrName w).1 = inl payload →
  ∃ entry,
    cache (fetchPokemonDetail net idOrName w).2 !! call_key (pokemon_call idOrName)
    = Some entry
    ∧ data entry = payload.
Proof.
  unfold fetchPokemonByNameOrId. rewrite <- take_off_outcome.
  unfold fetchPokemonDetail, land_all. cbn [snd cache].
  rewrite foldl_apply_write_lookup.
  pose proof (item_species_keys_differ idOrName idOrName) as Hne.
  unfold take_off, call_key in *.
  remember (cacheKey (pokemon_call idOrName).1 (pokemon_call idOrName).2) as kp
    eqn:Ekp.
  remember (cacheKey (species_call idOrName).1 (species_call idOrName).2) as ks
    eqn:Eks.
  clear Ekp Eks.
  cbn [default from_option id].
  destruct (fresh_entry DEFAULT_TTL kp w) as [hit|] eqn:Hp;
    destruct (fresh_entry DEFAULT_TTL ks w) as [hit'|] eqn:Hs;
    cbn [flight_outcome omap list_omap flight_write].
  - intros [= <-]. simpl.
    apply fresh_entry_inv in Hp as (entry & ? & _ & ?). eauto.
  - intros [= <-].
    apply fresh_entry_inv in Hp as (entry & Hentry & _ & ?).
    destruct (outcome (net (clock w) _)) as [got|e]; simpl;
      rewrite ?filter_cons, ?filter_nil;
      repeat case_decide; simpl in *; try congruence; eauto.
  - intros Hout. rewrite Hout. simpl.
    rewrite ?filter_cons, ?filter_nil.
    repeat case_decide; simpl in *; try congruence; eauto.
  - intros Hout. rewrite Hout.
    destruct (outcome (net (clock w) {| req_url := (species_call idOrName).1;
                                        req_params := _ |})) as [got|e];
      simpl; try destruct (_ <=? 0); simpl;
      rewrite ?filter_cons, ?filter_nil;
      repeat case_decide; simpl in *; try congruence; eauto.
Qed.

(** X10: once [getDetail] has fulfilled for an item, a [getSummary] for
    the same name or id that comes while the cached item is younger than
    the ttl sends no request and returns the detail's own summary part,
    which it files under the detail's id: the two views of one item
    cannot disagree within the ttl. *)
Theorem getSummary_after_getDetail idOrName st w detail :
  returned (getDetail net idOrName st w) = inl detail →
  ∃ entry,
    cache (world (getDetail net idOrName st w)) !! call_key (pokemon_call idOrName)
    = Some entry
    ∧ ∀ dt st2,
        clock (world (getDetail net idOrName st w)) + Z.of_N dt - timestamp entry
        < DEFAULT_TTL →
        let later := elapse dt (world (getDetail net idOrName st w)) in
        let run := getSummary net idOrName st2 later in
        returned run = inl (d_summary detail)
        ∧ world run = later
        ∧ summariesById (store_after st2 run) !! d_id detail
          = Some (PlainSummary (d_summary detail)).
Proof.
  unfold getDetail.
  pose proof (fetchPokemonDetail_outcome net idOrName w) as Hout.
  pose proof (fetchPokemonDetail_caches_item idOrName w) as Hcache.
  destruct (fetchPokemonDetail net idOrName w) as [fetched w1].
  cbn [fst snd returned world] in *. intros ->.
  destruct Hout as (pokemon & species & Hitem & _ & ->).
  destruct (Hcache _ Hitem) as (entry & Hentry & Hdata).
  exists entry. split; [exact Hentry|].
  intros dt st2 Hfresh. cbv zeta.
  unfold getSummary, fetchPokemonSummary, fetchPokemonByNameOrId, getCached.
  rewrite (fresh_entry_Some _ _ _ entry); [|exact Hentry|exact Hfresh].
  rewrite Hdata. cbn. split; [done|]. split; [done|].
  unfold store_after. cbn. apply lookup_insert_eq.
Qed.
End StoreWorldProperties.

Lemma getSummary_after_getDetail_witness :
  returned summary_after_detail = inl (mapToSummary bulbasaur)
  ∧ world summary_after_detail = elapse 1000 (world sample_detail)
  ∧ length (sent (world summary_after_detail)) = 2%nat.
Proof.
  destruct (getSummary_after_getDetail sample_net (ById 1) initial_store cold_world
              (mapToDetail bulbasaur bulbasaur_species))
    as (entry & Hentry & Hlater); [vm_compute; reflexivity|].
  assert (Hstamp : timestamp entry = 1700000000090).
  { assert (Hcomputed : cache (world sample_detail)
                          !! call_key (pokemon_call (ById 1))
                        = Some {| timestamp := 1700000000090;
                                  data := PokemonPayload bulbasaur |})
      by (vm_compute; reflexivity).
    unfold sample_detail in Hcomputed. rewrite Hentry in Hcomputed.
    by injection Hcomputed as ->. }
  destruct (Hlater 1000%N initial_store) as (Hret & Hworld & _).
  { rewrite Hstamp. vm_compute. reflexivity. }
  split; [exact Hret|]. split; [exact Hworld|].
  vm_compute. reflexivity.
Defined.

(** ** [loadList] on success, and the invariants of the store *)

Section ListLoadProperties.
Variable type_error_message : Shape → string.
Variable net : Network Payload.

Implicit Types (w : World Payload) (st : Store) (captured : list PokemonSummary).

Lemma index_summaries_lookup summaries prev i :
  index_summaries summaries prev !! i
  = match last (filter (λ s, s_id s = i) summaries) with
    | Some s => Some (PlainSummary s)
    | None => prev !! i
    end.
Proof.
  induction summaries as [|s summaries IH] using rev_ind; [done|].
  unfold index_summaries. rewrite foldl_app, filter_app. cbn [foldl].
  fold (index_summaries summaries prev).
  rewrite filter_cons, filter_nil.
  destruct (decide (s_id s = i)) as [<-|Hne].
  - by rewrite lookup_insert_eq, last_snoc.
  - rewrite lookup_insert_ne by done. by rewrite app_nil_r.
Qed.

Lemma last_filter_Some {A} (P : A → Prop) `{!∀ x, Decision (P x)} (l : list A) x :
  last (filter P l) = Some x → x ∈ l ∧ P x.
Proof.
  intros Hlast. apply last_Some in Hlast as [l' Hl'].
  assert (Hin : x ∈ filter P l).
  { rewrite Hl'. apply elem_of_app. right. apply list_elem_of_here. }
  by apply list_elem_of_filter in Hin as [? ?].
Qed.

Lemma last_filter_None {A} (P : A → Prop) `{!∀ x, Decision (P x)} (l : list A) x :
  last (filter P l) = None → x ∈ l → ¬ P x.
Proof.
  intros Hlast Hin HP.
  assert (Hx : x ∈ filter P l) by (by apply list_elem_of_filter).
  destruct (filter P l) as [|y l'] using rev_ind; [by apply elem_of_nil in Hx|].
  by rewrite last_snoc in Hlast.
Qed.

Lemma load_page_fulfils_with limit offset w response summaries :
  (load_page net limit offset w).1 = inl (response, summaries) →
  let index := fetchPokemonList net (Some limit) (Some offset) w in
  result_bind index.1 as_list = inl response
  ∧ Forall2 (λ result summary,
               (fetchPokemonSummary net (ByName (res_name result)) index.2).1
               = inl summary)
      (lr_results response) summaries.
Proof.
  unfold load_page.
  destruct (fetchPokemonList net (Some limit) (Some offset) w) as [payload w1].
  cbn [fst snd]. destruct (result_bind payload as_list) as [response'|e]; [|done].
  unfold fetchPokemonSummaries. cbn [fst snd].
  destruct (promise_all _) as [values|e] eqn:Hall; [|done].
  cbn. intros [= <- <-]. split; [done|].
  apply promise_all_fulfils in Hall.
  change (map ?f ?l) with (f <$> l) in Hall.
  rewrite <- list_fmap_compose in Hall. apply Forall2_fmap_l in Hall.
  eapply Forall2_impl; [exact Hall|].
  intros result summary Hsettled. cbn in Hsettled.
  by rewrite <- (summary_flight_settlement net (clock w1)).
Qed.

(** X11: a [loadList] that gets past the guard and whose fetches all
    fulfil leaves the page as the list, one summary per entry of the
    index and in the order of the index, each the summary the item fetch
    for that name gave; the count of the index as total count; no error;
    the loading flag off; the requested limit and offset as list
    parameters; the detail map as it was; and a summary map that holds,
    under each id of the page, the last summary of the page with that id,
    and under every other id what it held before. *)
Theorem loadList_success_commits captured limit offset st w response summaries :
  let l := default 1000 limit in
  let o := default 0 offset in
  let index := fetchPokemonList net (Some l) (Some o) w in
  let st' :=
    store_after st (loadList type_error_message net captured limit offset st w) in
  captured = [] →
  (load_page net l o w).1 = inl (response, summaries) →
  result_bind index.1 as_list = inl response
  ∧ Forall2 (λ result summary,
               (fetchPokemonSummary net (ByName (res_name result)) index.2).1
               = inl summary)
      (lr_results response) summaries
  ∧ pokemonList st' = summaries
  ∧ totalCount st' = lr_count response
  ∧ listError st' = None
  ∧ isListLoading st' = false
  ∧ listParams st' = {| limit := l; offset := o |}
  ∧ detailsById st' = detailsById st
  ∧ ∀ i, summariesById st' !! i
         = match last (filter (λ s, s_id s = i) summaries) with
           | Some s => Some (PlainSummary s)
           | None => summariesById st !! i
           end.
Proof.
  intros l o index st' -> Hpage. subst st'.
  destruct (load_page_fulfils_with l o w response summaries Hpage) as [Hindex Hall].
  split; [exact Hindex|]. split; [exact Hall|].
  rewrite loadList_unguarded. cbv zeta. fold l o.
  rewrite Hpage. unfold store_after. cbn.
  do 6 (split; [done|]).
  intros i. apply index_summaries_lookup.
Qed.

(** X12: from an empty cache, a [loadList] whose index request fulfils
    sends the index request and then one item request for every entry of
    the index, in the order of the index: a name that the index lists
    twice is requested twice. *)
Theorem loadList_cold_requests captured limit offset st w response :
  captured = [] →
  cache w = ∅ →
  outcome (net (clock w) (call_request (list_call limit offset)))
  = inl (ListPayload response) →
  sent (world (loadList type_error_message net captured limit offset st w))
  = (sent w
     ++ call_request (list_call limit offset)
     :: map (λ result, call_request (pokemon_call (ByName (res_name result))))
          (lr_results response))%list.
Proof.
  intros -> Hcold Hindex.
  rewrite loadList_unguarded. cbv zeta. cbn [world].
  unfold load_page, fetchPokemonList, getCached.
  rewrite fresh_entry_None by (intros entry; by rewrite Hcold, lookup_empty).
  unfold request_and_store, call_request, list_call in *.
  cbn [fst snd default from_option id] in *. rewrite Hindex. cbn [result_bind as_list].
  unfold fetchPokemonSummaries, land_all. cbn [snd sent].
  rewrite <- app_assoc. cbn [app]. do 2 f_equal.
  induction (lr_results response) as [|result results IH]; [done|].
  cbn [map omap list_omap]. rewrite <- IH. unfold take_off at 1.
  rewrite fresh_entry_None; [done|].
  intros entry. cbn [cache]. rewrite Hcold, lookup_insert_ne, lookup_empty; [done|].
  intros Hkey. apply cacheKey_inv in Hkey as [Hurl _]. simpl in Hurl. discriminate.
Qed.
End ListLoadProperties.

Lemma loadList_success_commits_witness :
  pokemonList (store_after initial_store sample_load) = [mapToSummary bulbasaur]
  ∧ totalCount (store_after initial_store sample_load) = 1302
  ∧ listError (store_after initial_store sample_load) = None
  ∧ summariesById (store_after initial_store sample_load) !! 1
    = Some (PlainSummary (mapToSummary bulbasaur)).
Proof.
  destruct (loadList_success_commits sample_messages sample_net [] None None
              initial_store cold_world sample_page [mapToSummary bulbasaur])
    as (_ & _ & Hlist & Hcount & Herror & _ & _ & _ & Hindex);
    [reflexivity|vm_compute; reflexivity|].
  split; [exact Hlist|]. split; [exact Hcount|]. split; [exact Herror|].
  exact (Hindex 1).
Defined.

Lemma loadList_cold_requests_witness :
  sent (world twin_load)
  = [index_request; bulbasaur_request; bulbasaur_request].
Proof.
  apply (loadList_cold_requests sample_messages twin_net [] None None initial_store
           cold_world twin_page); reflexivity.
Defined.

#[local] Arguments index_summaries : simpl never.

Section StoreInvariants.
Variable type_error_message : Shape → string.
Variable net : Network Payload.

Implicit Types (w : World Payload) (st : Store) (captured : list PokemonSummary).

Lemma store_consistent_same_data st st' :
  pokemonList st' = pokemonList st →
  summariesById st' = summariesById st →
  detailsById st' = detailsById st →
  store_consistent st → store_consistent st'.
Proof.
  unfold store_consistent, keyed_by_own_id, list_indexed, details_have_summaries.
  by intros -> -> ->.
Qed.

Lemma loadList_consistent captured limit offset st w :
  store_consistent st →
  store_consistent
    (store_after st (loadList type_error_message net captured limit offset st w)).
Proof.
  intros Hst.
  destruct captured as [|summary rest];
    [|by rewrite loadList_guarded by done].
  rewrite loadList_unguarded. cbv zeta.
  destruct (load_page net _ _ w).1 as [[response summaries]|e];
    unfold store_after; cbn;
    [|by apply (store_consistent_same_data st)].
  destruct Hst as ((Hsum & Hdet) & _ & Himplies).
  split; [split|split]; cbn.
  - intros i entry. rewrite index_summaries_lookup.
    destruct (last _) as [s|] eqn:Hlast; [|by apply Hsum].
    intros [= <-]. by apply last_filter_Some in Hlast as [_ ?].
  - exact Hdet.
  - intros summary Hin. cbn in *. rewrite index_summaries_lookup.
    destruct (last _) as [s|] eqn:Hlast; [by eauto|].
    by destruct (last_filter_None _ _ summary Hlast Hin).
  - intros i Hdetail. cbn in *. rewrite index_summaries_lookup.
    destruct (last _); [by eauto|by apply Himplies].
Qed.

Lemma getSummary_consistent idOrName st w :
  store_consistent st →
  store_consistent (store_after st (getSummary net idOrName st w)).
Proof.
  intros ((Hsum & Hdet) & Hlist & Himplies). unfold getSummary.
  destruct (fetchPokemonSummary net idOrName w) as [[summary|e] w'];
    unfold store_after; cbn; [|done].
  split; [split|split]; cbn.
  - intros i entry.
    destruct (decide (s_id summary = i)) as [<-|Hne].
    + rewrite lookup_insert_eq. by intros [= <-].
    + rewrite lookup_insert_ne by done. apply Hsum.
  - exact Hdet.
  - intros s Hin. cbn in *. apply lookup_insert_is_Some'. right. by apply Hlist.
  - intros i Hdetail. cbn in *. apply lookup_insert_is_Some'. right.
    by apply Himplies.
Qed.

Lemma getDetail_consistent idOrName st w :
  store_consistent st →
  store_consistent (store_after st (getDetail net idOrName st w)).
Proof.
  intros ((Hsum & Hdet) & Hlist & Himplies). unfold getDetail.
  destruct (fetchPokemonDetail net idOrName w) as [[detail|e] w'];
    unfold store_after; cbn; [|done].
  split; [split|split]; cbn.
  - intros i entry.
    destruct (decide (d_id detail = i)) as [<-|Hne].
    + rewrite lookup_insert_eq. by intros [= <-].
    + rewrite lookup_insert_ne by done. apply Hsum.
  - intros i d.
    destruct (decide (d_id detail = i)) as [<-|Hne].
    + rewrite lookup_insert_eq. by intros [= <-].
    + rewrite lookup_insert_ne by done. apply Hdet.
  - intros s Hin. cbn in *. apply lookup_insert_is_Some'. right. by apply Hlist.
  - intros i. cbn.
    destruct (decide (d_id detail = i)) as [<-|Hne].
    + rewrite !lookup_insert_eq. eauto.
    + rewrite !lookup_insert_ne by done. apply Himplies.
Qed.

(** X13: the store the provider starts with is consistent, and every
    operation takes a consistent store to a consistent store, whatever
    the network answers: each entry of the summary map and of the detail
    map sits under its own id, every member of the list has an entry in
    the summary map, and every id with a detail also has a summary. *)
Theorem store_consistent_invariant captured limit offset idOrName st w :
  store_consistent initial_store
  ∧ (store_consistent st →
     store_consistent
       (store_after st
          (loadList type_error_message net captured limit offset st w))
     ∧ store_consistent (store_after st (getSummary net idOrName st w))
     ∧ store_consistent (store_after st (getDetail net idOrName st w))).
Proof.
  split.
  - split; [split|split]; cbn.
    + intros i entry. by rewrite lookup_empty.
    + intros i detail. by rewrite lookup_empty.
    + intros summary Hin. by apply elem_of_nil in Hin.
    + intros i. cbn. rewrite lookup_empty. by intros [? ?].
  - intros Hst.
    auto using loadList_consistent, getSummary_consistent, getDetail_consistent.
Qed.
End StoreInvariants.

Lemma store_consistent_invariant_witness :
  store_consistent (store_after initial_store sample_load)
  ∧ store_consistent (store_after initial_store sample_detail).
Proof.
  destruct (store_consistent_invariant sample_messages sample_net [] None None
              (ById 1) initial_store cold_world) as [Hinit Hstep].
  destruct (Hstep Hinit) as (Hload & _ & Hdetail).
  split; [exact Hload|exact Hdetail].
Defined.

(** * The pages *)

(** ** The type filter of the gallery *)

Lemma array_includes_true {A} `{EqDecision A} (l : list A) x :
  array_includes l x = true ↔ x ∈ l.
Proof. unfold array_includes. by rewrite bool_decide_eq_true. Qed.

Lemma array_includes_false {A} `{EqDecision A} (l : list A) x :
  array_includes l x = false ↔ x ∉ l.
Proof. unfold array_includes. by rewrite bool_decide_eq_false. Qed.

(** X14: toggling a type flips whether it is selected and changes that
    of no other type; a selection without duplicates stays without
    duplicates; and toggling a type that was not selected twice gives
    back the selection exactly as it was. *)
Theorem toggleType_flips (type : string) (prev : list string) :
  (type ∈ toggleType type prev ↔ type ∉ prev)
  ∧ (∀ other, other ≠ type → other ∈ toggleType type prev ↔ other ∈ prev)
  ∧ (NoDup prev → NoDup (toggleType type prev))
  ∧ (type ∉ prev → toggleType type (toggleType type prev) = prev).
Proof.
  unfold toggleType at 1 2 3.
  destruct (array_includes prev type) eqn:Hin.
  - apply array_includes_true in Hin.
    split; [|split; [|split]].
    + rewrite list_elem_of_filter. tauto.
    + intros other Hne. rewrite list_elem_of_filter. tauto.
    + apply NoDup_filter.
    + tauto.
  - pose proof Hin as Hbool. apply array_includes_false in Hin.
    split; [|split; [|split]].
    + rewrite elem_of_app, list_elem_of_singleton. tauto.
    + intros other Hne. rewrite elem_of_app, list_elem_of_singleton. tauto.
    + intros Hnd. apply NoDup_app. split; [done|].
      split; [|apply NoDup_singleton].
      intros x Hx ->%list_elem_of_singleton. done.
    + intros _. unfold toggleType. rewrite Hbool.
      assert (Hnow : array_includes (prev ++ [type]) type = true).
      { apply array_includes_true, elem_of_app. right. apply list_elem_of_here. }
      rewrite Hnow, filter_app, filter_cons, filter_nil, decide_False by tauto.
      rewrite app_nil_r. apply filter_keeps_all.
      apply Forall_forall. intros x Hx ->. done.
Qed.

Lemma toggleType_flips_witness :
  NoDup (toggleType "fire" ["grass"; "fire"])
  ∧ toggleType "fire" (toggleType "fire" ["grass"]) = ["grass"]
  ∧ ("grass" ∈ toggleType "fire" ["grass"; "fire"]).
Proof.
  destruct (toggleType_flips "fire" ["grass"; "fire"]) as (_ & Hother & Hnodup & _).
  destruct (toggleType_flips "fire" ["grass"]) as (_ & _ & _ & Htwice).
  split; [apply Hnodup; compute_done|].
  split; [apply Htwice; compute_done|].
  apply Hother; compute_done.
Defined.

Lemma List_filter_sublist {A} (f : A → bool) (l : list A) :
  sublist (List.filter f l) l.
Proof.
  induction l as [|x l IH]; simpl; [constructor|].
  destruct (f x); by constructor.
Qed.

Lemma List_filter_sublist_mono {A} (f g : A → bool) (l : list A) :
  (∀ x, f x = true → g x = true) →
  sublist (List.filter f l) (List.filter g l).
Proof.
  intros Himpl. induction l as [|x l IH]; simpl; [constructor|].
  destruct (f x) eqn:Hf.
  - rewrite (Himpl x Hf). by constructor.
  - destruct (g x); [by constructor|done].
Qed.

Lemma List_filter_elem_of {A} (f : A → bool) (l : list A) x :
  x ∈ List.filter f l ↔ x ∈ l ∧ f x = true.
Proof. rewrite !list_elem_of_In. apply filter_In. Qed.

Lemma has_all_types_spec (types selected : list string) :
  forallb (λ type, array_includes types type) selected = true
  ↔ ∀ type, type ∈ selected → type ∈ types.
Proof.
  rewrite forallb_forall. split.
  - intros H type Hin. apply array_includes_true, H. by apply list_elem_of_In.
  - intros H type Hin. apply array_includes_true, H. by apply list_elem_of_In.
Qed.

Lemma gallery_filtered_filter items selected :
  gallery_filtered items selected
  = List.filter
      (λ pokemon, forallb (λ type, array_includes (s_types pokemon) type) selected)
      items.
Proof.
  unfold gallery_filtered. destruct selected as [|type selected]; [|done].
  simpl. induction items as [|x items IH]; simpl; congruence.
Qed.

(** X15: the gallery shows exactly the members of the list that have
    every selected type, in the order of the list (with nothing selected,
    all of them).  Selecting one more type keeps, of what was shown,
    exactly the members that have that type; deselecting a type never
    hides a member that was shown. *)
Theorem gallery_filtered_spec (items : list PokemonSummary) (selected : list string) :
  (∀ pokemon,
     pokemon ∈ gallery_filtered items selected
     ↔ pokemon ∈ items ∧ ∀ type, type ∈ selected → type ∈ s_types pokemon)
  ∧ sublist (gallery_filtered items selected) items
  ∧ (∀ type,
       type ∉ selected →
       gallery_filtered items (toggleType type selected)
       = List.filter (λ pokemon, array_includes (s_types pokemon) type)
           (gallery_filtered items selected))
  ∧ (∀ type,
       type ∈ selected →
       sublist (gallery_filtered items selected)
         (gallery_filtered items (toggleType type selected))).
Proof.
  rewrite !gallery_filtered_filter.
  split; [|split; [|split]].
  - intros pokemon. by rewrite List_filter_elem_of, has_all_types_spec.
  - apply List_filter_sublist.
  - intros type Hnew. rewrite !gallery_filtered_filter. unfold toggleType.
    apply array_includes_false in Hnew. rewrite Hnew.
    induction items as [|x items IH]; [done|].
    simpl. rewrite forallb_app. simpl. rewrite andb_true_r.
    destruct (forallb _ selected); simpl; [|exact IH].
    destruct (array_includes (s_types x) type); [by rewrite IH|exact IH].
  - intros type Hold. rewrite !gallery_filtered_filter.
    apply List_filter_sublist_mono. intros pokemon.
    rewrite !has_all_types_spec. intros Hall other Hother. apply Hall.
    unfold toggleType in Hother. apply array_includes_true in Hold.
    rewrite Hold in Hother. by apply list_elem_of_filter in Hother as [_ ?].
Qed.

Lemma gallery_filtered_spec_witness :
  gallery_filtered three_items (toggleType "flying" ["fire"]) = [fire_flying]
  ∧ sublist (gallery_filtered three_items ["fire"; "flying"])
      (gallery_filtered three_items (toggleType "flying" ["fire"; "flying"])).
Proof.
  destruct (gallery_filtered_spec three_items ["fire"]) as (_ & _ & Hadd & _).
  destruct (gallery_filtered_spec three_items ["fire"; "flying"])
    as (_ & _ & _ & Hremove).
  split.
  - rewrite (Hadd "flying") by compute_done. reflexivity.
  - apply Hremove. compute_done.
Defined.

(** ** The type chips of the gallery *)

Lemma set_add_elem_of unique type x :
  x ∈ set_add unique type ↔ x ∈ unique ∨ x = type.
Proof.
  unfold set_add. destruct (array_includes unique type) eqn:Hin.
  - apply array_includes_true in Hin. split; [tauto|]. intros [?| ->]; done.
  - rewrite elem_of_app, list_elem_of_singleton. tauto.
Qed.

Lemma set_add_NoDup unique type : NoDup unique → NoDup (set_add unique type).
Proof.
  intros Hnd. unfold set_add. destruct (array_includes unique type) eqn:Hin; [done|].
  apply array_includes_false in Hin. apply NoDup_app.
  split; [done|]. split; [|apply NoDup_singleton].
  intros x Hx ->%list_elem_of_singleton. done.
Qed.

Lemma add_types_spec types unique :
  (NoDup unique → NoDup (foldl set_add unique types))
  ∧ ∀ x, x ∈ foldl set_add unique types ↔ x ∈ unique ∨ x ∈ types.
Proof.
  revert unique. induction types as [|type types IH]; intros unique; simpl.
  - split; [done|]. intros x. rewrite elem_of_nil. tauto.
  - destruct (IH (set_add unique type)) as [Hnd Hin]. split.
    + intros Hu. by apply Hnd, set_add_NoDup.
    + intros x. rewrite Hin, set_add_elem_of, elem_of_cons. tauto.
Qed.

Lemma collect_types_spec (items : list PokemonSummary) unique :
  (NoDup unique →
   NoDup (foldl (λ u pokemon, foldl set_add u (s_types pokemon)) unique items))
  ∧ ∀ x,
      x ∈ foldl (λ u pokemon, foldl set_add u (s_types pokemon)) unique items
      ↔ x ∈ unique ∨ ∃ pokemon, pokemon ∈ items ∧ x ∈ s_types pokemon.
Proof.
  revert unique. induction items as [|pokemon items IH]; intros unique; simpl.
  - split; [done|]. intros x. split; [tauto|].
    intros [?|(p & Hp & _)]; [done|by apply elem_of_nil in Hp].
  - destruct (IH (foldl set_add unique (s_types pokemon))) as [Hnd Hin].
    destruct (add_types_spec (s_types pokemon) unique) as [Hnd' Hin'].
    split; [by auto|].
    intros x. rewrite Hin, Hin'. split.
    + intros [[?|?]|(p & ? & ?)]; [by left| |];
        right; eexists; split; try done;
        [apply list_elem_of_here|by apply list_elem_of_further].
    + intros [?|(p & Hp & ?)]; [by auto|].
      apply elem_of_cons in Hp as [->|Hp]; [by auto|]. right. eauto.
Qed.

(** X16: whatever the locale's comparison, the type chips of the
    gallery are the types that occur on some member of the list, each
    exactly once; so selecting any one chip on its own never leaves the
    gallery empty. *)
Theorem allTypes_spec (localeCompare : string → string → Z)
    (items : list PokemonSummary) :
  NoDup (allTypes localeCompare items)
  ∧ (∀ type,
       type ∈ allTypes localeCompare items
       ↔ ∃ pokemon, pokemon ∈ items ∧ type ∈ s_types pokemon)
  ∧ (∀ type,
       type ∈ allTypes localeCompare items → gallery_filtered items [type] ≠ []).
Proof.
  destruct (collect_types_spec items []) as [Hnd Hin].
  assert (Hmem : ∀ type,
            type ∈ allTypes localeCompare items
            ↔ ∃ pokemon, pokemon ∈ items ∧ type ∈ s_types pokemon).
  { intros type. unfold allTypes. rewrite array_sort_Permutation_any, Hin.
    rewrite elem_of_nil. tauto. }
  split; [|split; [exact Hmem|]].
  - unfold allTypes. rewrite array_sort_Permutation_any. apply Hnd. constructor.
  - intros type (pokemon & Hitem & Htype)%Hmem Hempty.
    assert (Hshown : pokemon ∈ gallery_filtered items [type]).
    { rewrite gallery_filtered_filter, List_filter_elem_of. split; [done|].
      simpl. rewrite andb_true_r. by apply array_includes_true. }
    rewrite Hempty in Hshown. by apply elem_of_nil in Hshown.
Qed.

Lemma allTypes_spec_witness :
  "flying" ∈ allTypes by_length three_items
  ∧ gallery_filtered three_items ["flying"] ≠ [].
Proof.
  destruct (allTypes_spec by_length three_items) as (_ & Hmem & Hchip).
  assert (Hin : "flying" ∈ allTypes by_length three_items).
  { apply Hmem. exists fire_flying. split; [apply list_elem_of_here|compute_done]. }
  split; [exact Hin|by apply Hchip].
Defined.

(** ** Search and sort of the list page *)

Lemma prefix_spec sub s :
  String.prefix sub s = true ↔ ∃ post, s = sub ++ post.
Proof.
  revert sub. induction s as [|b s IH]; intros [|a sub]; simpl.
  - split; [by exists EmptyString|done].
  - split; [done|by intros [? ?]].
  - split; [by exists (String b s)|done].
  - destruct (ascii_dec a b) as [->|Hne].
    + rewrite IH. split; intros [post Hpost]; exists post; congruence.
    + split; [done|]. intros [post [= ? ?]]. done.
Qed.

Lemma string_includes_spec s sub :
  string_includes s sub = true ↔ ∃ pre post, s = pre ++ sub ++ post.
Proof.
  induction s as [|c s IH].
  - cbn [string_includes]. rewrite orb_false_r, prefix_spec. split.
    + intros [post ->]. by exists EmptyString, post.
    + intros (pre & post & H). destruct pre; [by eauto|done].
  - cbn [string_includes]. rewrite orb_true_iff, IH, prefix_spec. split.
    + intros [[post ->]|(pre & post & ->)].
      * by exists EmptyString, post.
      * by exists (String c pre), post.
    + intros (pre & post & H). destruct pre as [|c' pre].
      * left. by exists post.
      * right. simpl in H. injection H as -> ->. eauto.
Qed.

Lemma insert_by_ext {A} (cmp cmp' : A → A → Z) x (l : list A) :
  (∀ a b, cmp a b = cmp' a b) → insert_by cmp x l = insert_by cmp' x l.
Proof.
  intros Hext. induction l as [|y l IH]; simpl; [done|].
  by rewrite Hext, IH.
Qed.

Lemma array_sort_ext {A} (cmp cmp' : A → A → Z) (l : list A) :
  (∀ a b, cmp a b = cmp' a b) → array_sort cmp l = array_sort cmp' l.
Proof.
  intros Hext. induction l as [|x l IH]; simpl; [done|].
  rewrite IH. by apply insert_by_ext.
Qed.

Lemma StronglySorted_weaken {A} (R R' : A → A → Prop) (l : list A) :
  (∀ a b, R a b → R' a b) → StronglySorted R l → StronglySorted R' l.
Proof.
  intros Himpl. induction 1 as [|x l Hl IH Hx]; constructor; [done|].
  eapply Forall_impl; [exact Hx|]. intros y. apply Himpl.
Qed.

Section ListPageProperties.
Variable trim : string → string.
Variable toLowerCase : string → string.
Variable localeCompare : string → string → Z.

(** X17: whatever the runtime's [trim], [toLowerCase] and
    [localeCompare] are, the list page shows exactly the members of the
    list whose lower-cased name contains the trimmed, lower-cased query
    somewhere (all of them when that query is empty), each as often as
    the list holds it, so never more than the list holds; and sorted by
    id they are ascending by id in ascending order and descending by id
    in descending order. *)
Theorem filteredAndSorted_spec (items : list PokemonSummary) (query : string)
    (sortBy : SortBy) (sortOrder : SortOrder) :
  let lowerQuery := toLowerCase (trim query) in
  let shown := filteredAndSorted trim toLowerCase localeCompare items query
                 sortBy sortOrder in
  (∀ pokemon,
     pokemon ∈ shown
     ↔ pokemon ∈ items
       ∧ ∃ pre post, toLowerCase (s_name pokemon) = pre ++ lowerQuery ++ post)
  ∧ shown ≡ₚ List.filter
               (λ pokemon, string_includes (toLowerCase (s_name pokemon)) lowerQuery)
               items
  ∧ (length shown ≤ length items)%nat
  ∧ (lowerQuery = EmptyString → shown ≡ₚ items)
  ∧ (sortBy = SortById → sortOrder = Ascending →
     StronglySorted (λ a b, s_id a ≤ s_id b) shown)
  ∧ (sortBy = SortById → sortOrder = Descending →
     StronglySorted (λ a b, s_id b ≤ s_id a) shown).
Proof.
  intros lowerQuery shown.
  assert (Hfilter : ∀ l : list PokemonSummary,
            match lowerQuery with
            | EmptyString => l
            | String _ _ =>
                List.filter
                  (λ pokemon,
                     string_includes (toLowerCase (s_name pokemon)) lowerQuery) l
            end
            = List.filter
                (λ pokemon,
                   string_includes (toLowerCase (s_name pokemon)) lowerQuery) l).
  { intros l. destruct lowerQuery as [|c rest] eqn:Hq; [|done].
    induction l as [|x l IH]; simpl; [done|].
    destruct (toLowerCase (s_name x)); simpl; congruence. }
  assert (Hperm : shown
                  ≡ₚ List.filter
                       (λ pokemon,
                          string_includes (toLowerCase (s_name pokemon)) lowerQuery)
                       items).
  { subst shown. unfold filteredAndSorted. fold lowerQuery.
    by rewrite array_sort_Permutation_any, Hfilter. }
  split; [|split; [exact Hperm|split; [|split; [|split]]]].
  - intros pokemon.
    by rewrite Hperm, List_filter_elem_of, string_includes_spec.
  - rewrite Hperm. apply sublist_length, List_filter_sublist.
  - intros Hempty. rewrite Hperm, <- Hfilter. by rewrite Hempty.
  - intros -> ->. subst shown. unfold filteredAndSorted.
    apply (array_sort_sorted s_id).
  - intros -> ->. subst shown. unfold filteredAndSorted.
    rewrite (array_sort_ext _ (λ a b, (λ p, - s_id p) a - (λ p, - s_id p) b))
      by (intros a b; simpl; lia).
    eapply StronglySorted_weaken;
      [|apply (array_sort_sorted (λ p, - s_id p))].
    intros a b. simpl. lia.
Qed.
End ListPageProperties.

Lemma filteredAndSorted_spec_witness :
  filteredAndSorted unchanged unchanged by_length three_items EmptyString
    SortById Ascending ≡ₚ three_items
  ∧ StronglySorted (λ a b, s_id a ≤ s_id b)
      (filteredAndSorted unchanged unchanged by_length three_items "char"
         SortById Ascending)
  ∧ StronglySorted (λ a b, s_id b ≤ s_id a)
      (filteredAndSorted unchanged unchanged by_length three_items "char"
         SortById Descending).
Proof.
  destruct (filteredAndSorted_spec unchanged unchanged by_length three_items
              EmptyString SortById Ascending) as (_ & _ & _ & Hall & _).
  destruct (filteredAndSorted_spec unchanged unchanged by_length three_items
              "char" SortById Ascending) as (_ & _ & _ & _ & Hup & _).
  destruct (filteredAndSorted_spec unchanged unchanged by_length three_items
              "char" SortById Descending) as (_ & _ & _ & _ & _ & Hdown).
  split; [apply Hall; reflexivity|].
  split; [apply Hup; reflexivity|apply Hdown; reflexivity].
Defined.

Example filteredAndSorted_char :
  filteredAndSorted unchanged unchanged by_length three_items "char"
    SortById Ascending = [fire; fire_flying].
Proof. reflexivity. Qed.

(** ** Previous and next on the detail page *)

Lemma findIndex_range {A} (test : A → bool) (l : list A) :
  -1 ≤ findIndex test l < Z.of_nat (length l).
Proof.
  induction l as [|x l IH]; simpl; [lia|].
  destruct (test x); [lia|].
  destruct (Z.ltb_spec (findIndex test l) 0); lia.
Qed.

Lemma findIndex_found {A} (test : A → bool) (l : list A) :
  0 ≤ findIndex test l →
  ∃ x, l !! Z.to_nat (findIndex test l) = Some x ∧ test x = true.
Proof.
  induction l as [|x l IH]; simpl; [lia|].
  destruct (test x) eqn:Hx; [intros _; by exists x|].
  destruct (Z.ltb_spec (findIndex test l) 0) as [Hneg|Hpos]; [lia|].
  intros _. destruct (IH Hpos) as (y & Hy & Hty). exists y. split; [|done].
  replace (Z.to_nat (findIndex test l + 1)) with (S (Z.to_nat (findIndex test l)))
    by lia.
  done.
Qed.

Lemma findIndex_first {A} (test : A → bool) (l : list A) (i : nat) x :
  l !! i = Some x → test x = true →
  (∀ j y, (j < i)%nat → l !! j = Some y → test y = false) →
  findIndex test l = Z.of_nat i.
Proof.
  revert i. induction l as [|z l IH]; intros [|i] Hx Htest Hbefore; simpl in *;
    try done.
  - injection Hx as ->. by rewrite Htest.
  - rewrite (Hbefore 0%nat z) by (done || lia).
    rewrite (IH i Hx Htest).
    + destruct (Z.ltb_spec (Z.of_nat i) 0); lia.
    + intros j y Hj Hy. apply (Hbefore (S j) y); [lia|done].
Qed.

Lemma findIndex_none {A} (test : A → bool) (l : list A) :
  (∀ x, x ∈ l → test x = false) → findIndex test l = -1.
Proof.
  induction l as [|x l IH]; intros Hall; simpl; [done|].
  rewrite (Hall x) by apply list_elem_of_here.
  rewrite IH; [done|]. intros y Hy. apply Hall. by apply list_elem_of_further.
Qed.

Lemma currentIndex_range detail (items : list PokemonSummary) :
  -1 ≤ currentIndex detail items < Z.max 0 (Z.of_nat (length items)).
Proof.
  unfold currentIndex. destruct detail as [detail|]; [|lia].
  destruct (length items =? 0)%nat; [lia|].
  pose proof (findIndex_range (λ pokemon, s_id pokemon =? d_id detail) items). lia.
Qed.

Lemma currentIndex_first (shown : PokemonDetail) (items : list PokemonSummary)
    (i : nat) current :
  items !! i = Some current → s_id current = d_id shown →
  (∀ j earlier, (j < i)%nat → items !! j = Some earlier →
                s_id earlier ≠ d_id shown) →
  currentIndex (Some shown) items = Z.of_nat i.
Proof.
  intros Hcurrent Hid Hfirst. unfold currentIndex.
  destruct (length items =? 0)%nat eqn:Hlen.
  { apply Nat.eqb_eq in Hlen. apply lookup_lt_Some in Hcurrent. lia. }
  apply (findIndex_first _ _ i current); [done|by apply Z.eqb_eq|].
  intros j earlier Hj Hearlier. apply Z.eqb_neq. by apply (Hfirst j).
Qed.

(** X18: the previous and next buttons never read past an end of the
    list: no click throws, and a click on a button that is off stays on
    the page.  When the detail on show has the id of a member of the
    list, the current index is the position of the first such member;
    previous is on unless that position is the first of the list, and a
    click then navigates to [/pokemon/<id>] of the member just before
    it; next is on unless that position is the last of the list, and a
    click then navigates to [/pokemon/<id>] of the member just after it.
    Without a detail, and with a detail whose id is not in the list, the
    current index is [-1], both buttons are off and a click stays. *)
Theorem navigation_stays_in_list (detail : option PokemonDetail)
    (items : list PokemonSummary) :
  (∀ e, goToPrevious detail items ≠ Throws e)
  ∧ (∀ e, goToNext detail items ≠ Throws e)
  ∧ (hasPrevious detail items = false → goToPrevious detail items = Stay)
  ∧ (hasNext detail items = false → goToNext detail items = Stay)
  ∧ (∀ shown (i : nat) current,
       detail = Some shown →
       items !! i = Some current →
       s_id current = d_id shown →
       (∀ j earlier, (j < i)%nat → items !! j = Some earlier →
                     s_id earlier ≠ d_id shown) →
       currentIndex detail items = Z.of_nat i
       ∧ (i = 0%nat →
          hasPrevious detail items = false ∧ goToPrevious detail items = Stay)
       ∧ (∀ k previous,
            i = S k → items !! k = Some previous →
            safe_integer (s_id previous) →
            hasPrevious detail items = true
            ∧ goToPrevious detail items
              = NavigateTo ("/pokemon/" ++ number_to_string (s_id previous)))
       ∧ (items !! S i = None →
          hasNext detail items = false ∧ goToNext detail items = Stay)
       ∧ (∀ next,
            items !! S i = Some next →
            safe_integer (s_id next) →
            hasNext detail items = true
            ∧ goToNext detail items
              = NavigateTo ("/pokemon/" ++ number_to_string (s_id next))))
  ∧ ((detail = None
      ∨ ∃ shown, detail = Some shown
                 ∧ ∀ pokemon, pokemon ∈ items → s_id pokemon ≠ d_id shown) →
     currentIndex detail items = -1
     ∧ hasPrevious detail items = false ∧ hasNext detail items = false
     ∧ goToPrevious detail items = Stay ∧ goToNext detail items = Stay).
Proof.
  pose proof (currentIndex_range detail items) as Hrange.
  assert (Hprev : hasPrevious detail items = true →
            ∃ previous,
              items !! Z.to_nat (currentIndex detail items - 1) = Some previous
              ∧ goToPrevious detail items
                = NavigateTo (detail_path (s_id previous))).
  { intros Hon. unfold goToPrevious, navigate_to_index. rewrite Hon.
    unfold hasPrevious in Hon. apply Z.ltb_lt in Hon.
    destruct (lookup_lt_is_Some_2 items (Z.to_nat (currentIndex detail items - 1)))
      as [previous Hprevious]; [lia|].
    rewrite Hprevious. eauto. }
  assert (Hnext : hasNext detail items = true →
            ∃ next,
              items !! Z.to_nat (currentIndex detail items + 1) = Some next
              ∧ goToNext detail items = NavigateTo (detail_path (s_id next))).
  { intros Hon. unfold goToNext, navigate_to_index. rewrite Hon.
    unfold hasNext in Hon. apply andb_true_iff in Hon as [H0 H1].
    apply Z.leb_le in H0. apply Z.ltb_lt in H1.
    destruct (lookup_lt_is_Some_2 items (Z.to_nat (currentIndex detail items + 1)))
      as [next Hnext]; [lia|].
    rewrite Hnext. eauto. }
  split; [|split; [|split; [|split; [|split]]]].
  - intros e. destruct (hasPrevious detail items) eqn:Hon.
    + destruct (Hprev eq_refl) as (previous & _ & ->). done.
    + unfold goToPrevious. by rewrite Hon.
  - intros e. destruct (hasNext detail items) eqn:Hon.
    + destruct (Hnext eq_refl) as (next & _ & ->). done.
    + unfold goToNext. by rewrite Hon.
  - intros Hoff. unfold goToPrevious. by rewrite Hoff.
  - intros Hoff. unfold goToNext. by rewrite Hoff.
  - intros shown i current -> Hcurrent Hid Hfirst.
    pose proof (currentIndex_first shown items i current Hcurrent Hid Hfirst)
      as Hindex.
    pose proof (lookup_lt_Some _ _ _ Hcurrent) as Hlen.
    split; [exact Hindex|]. split; [|split; [|split]].
    + intros ->. unfold goToPrevious, hasPrevious. by rewrite Hindex.
    + intros k previous -> Hprevious _.
      unfold goToPrevious, hasPrevious, navigate_to_index. rewrite Hindex.
      destruct (Z.ltb_spec 0 (Z.of_nat (S k))); [|lia].
      replace (Z.to_nat (Z.of_nat (S k) - 1)) with k by lia.
      by rewrite Hprevious.
    + intros Hlast. apply lookup_ge_None in Hlast.
      unfold goToNext, hasNext. rewrite Hindex.
      destruct (Z.ltb_spec (Z.of_nat i) (Z.of_nat (length items) - 1)); [lia|].
      by rewrite andb_false_r.
    + intros next Hnext' _. pose proof (lookup_lt_Some _ _ _ Hnext') as Hlen'.
      unfold goToNext, hasNext, navigate_to_index. rewrite Hindex.
      destruct (Z.leb_spec 0 (Z.of_nat i)); [|lia].
      destruct (Z.ltb_spec (Z.of_nat i) (Z.of_nat (length items) - 1)); [|lia].
      cbn [andb]. replace (Z.to_nat (Z.of_nat i + 1)) with (S i) by lia.
      by rewrite Hnext'.
  - intros Hnone.
    assert (Hindex : currentIndex detail items = -1).
    { destruct Hnone as [->|(shown & -> & Hnot)]; [done|].
      unfold currentIndex. destruct (length items =? 0)%nat; [done|].
      apply findIndex_none. intros pokemon Hin. apply Z.eqb_neq. by apply Hnot. }
    unfold goToPrevious, goToNext, hasPrevious, hasNext. by rewrite Hindex.
Qed.

(** X19: in a list whose ids are pairwise different, next from the
    detail of a member leads to the path of the member that follows it,
    and previous from there leads back to the path of the member one
    started from; previous from the first member stays. *)
Theorem navigation_round_trip (items : list PokemonSummary) (i : nat)
    (here there : PokemonSummary) (shown later : PokemonDetail) :
  NoDup (map s_id items) →
  items !! i = Some here →
  items !! S i = Some there →
  d_id shown = s_id here →
  d_id later = s_id there →
  currentIndex (Some shown) items = Z.of_nat i
  ∧ goToNext (Some shown) items = NavigateTo (detail_path (d_id later))
  ∧ goToPrevious (Some later) items = NavigateTo (detail_path (d_id shown))
  ∧ (i = 0%nat → goToPrevious (Some shown) items = Stay).
Proof.
  intros Hnd Hhere Hthere Hshown Hlater.
  assert (Hindex : ∀ (j : nat) member (d : PokemonDetail),
            items !! j = Some member → d_id d = s_id member →
            currentIndex (Some d) items = Z.of_nat j).
  { intros j member d Hmember Hd. unfold currentIndex.
    destruct (length items =? 0)%nat eqn:Hlen.
    { apply Nat.eqb_eq in Hlen. apply lookup_lt_Some in Hmember. lia. }
    apply (findIndex_first _ _ j member); [done|by apply Z.eqb_eq|].
    intros k other Hk Hother. apply Z.eqb_neq. rewrite Hd. intros Hsame.
    assert (Hk' : k = j); [|lia].
    apply (NoDup_lookup (map s_id items) k j (s_id member)); [done| |].
    - change (map ?f ?l) with (f <$> l).
      by rewrite list_lookup_fmap, Hother, <- Hsame.
    - change (map ?f ?l) with (f <$> l). by rewrite list_lookup_fmap, Hmember. }
  pose proof (Hindex i here shown Hhere Hshown) as Hi.
  pose proof (Hindex (S i) there later Hthere Hlater) as Hsi.
  pose proof (lookup_lt_Some _ _ _ Hthere) as Hlen.
  split; [exact Hi|]. split; [|split].
  - unfold goToNext, hasNext, navigate_to_index. rewrite Hi.
    destruct (Z.leb_spec 0 (Z.of_nat i)); [|lia].
    destruct (Z.ltb_spec (Z.of_nat i) (Z.of_nat (length items) - 1)); [|lia].
    cbn [andb]. replace (Z.to_nat (Z.of_nat i + 1)) with (S i) by lia.
    by rewrite Hthere, Hlater.
  - unfold goToPrevious, hasPrevious, navigate_to_index. rewrite Hsi.
    destruct (Z.ltb_spec 0 (Z.of_nat (S i))); [|lia].
    replace (Z.to_nat (Z.of_nat (S i) - 1)) with i by lia.
    by rewrite Hhere, Hshown.
  - intros ->. unfold goToPrevious, hasPrevious. by rewrite Hi.
Qed.

Lemma navigation_stays_in_list_witness :
  goToNext (Some (detail_of 6)) three_items = NavigateTo "/pokemon/1"
  ∧ goToPrevious (Some (detail_of 6)) three_items = Stay
  ∧ goToPrevious (Some (detail_of 4)) three_items = NavigateTo "/pokemon/1"
  ∧ goToNext (Some (detail_of 4)) three_items = Stay
  ∧ currentIndex (Some (detail_of 4)) (three_items ++ three_items) = 2
  ∧ goToPrevious (Some (detail_of 7)) three_items = Stay
  ∧ goToNext None three_items = Stay.
Proof.
  destruct (navigation_stays_in_list (Some (detail_of 6)) three_items)
    as (_ & _ & _ & _ & Hfirst & _).
  destruct (Hfirst (detail_of 6) 0%nat fire_flying eq_refl eq_refl eq_refl)
    as (_ & Hstay & _ & _ & Hnext); [intros j earlier Hj; lia|].
  destruct (navigation_stays_in_list (Some (detail_of 4)) three_items)
    as (_ & _ & _ & _ & Hlast & _).
  destruct (Hlast (detail_of 4) 2%nat fire eq_refl eq_refl eq_refl)
    as (_ & _ & Hback & Hend & _).
  { intros [|[|j]] earlier Hj Hearlier; [| |lia];
      vm_compute in Hearlier; injection Hearlier as <-; by vm_compute. }
  destruct (navigation_stays_in_list (Some (detail_of 4))
              (three_items ++ three_items)) as (_ & _ & _ & _ & Htwice & _).
  destruct (Htwice (detail_of 4) 2%nat fire eq_refl eq_refl eq_refl)
    as (Hindex & _).
  { intros [|[|j]] earlier Hj Hearlier; [| |lia];
      vm_compute in Hearlier; injection Hearlier as <-; by vm_compute. }
  destruct (navigation_stays_in_list (Some (detail_of 7)) three_items)
    as (_ & _ & _ & _ & _ & Hstranger).
  destruct (navigation_stays_in_list None three_items)
    as (_ & _ & _ & _ & _ & Hnone).
  split; [|split; [|split; [|split; [|split; [|split]]]]].
  - apply (Hnext grass_poison eq_refl).
    unfold safe_integer, MAX_SAFE_INTEGER. simpl. lia.
  - by apply Hstay.
  - apply (Hback 1%nat grass_poison eq_refl eq_refl).
    unfold safe_integer, MAX_SAFE_INTEGER. simpl. lia.
  - by apply Hend.
  - exact Hindex.
  - destruct Hstranger as (_ & _ & _ & Hstay' & _); [|exact Hstay'].
    right. exists (detail_of 7). split; [done|].
    intros pokemon Hin. unfold three_items in Hin.
    repeat (apply elem_of_cons in Hin as [->|Hin]; [by vm_compute|]).
    by apply elem_of_nil in Hin.
  - destruct Hnone as (_ & _ & _ & _ & Hstay'); [by left|exact Hstay'].
Defined.

Lemma navigation_round_trip_witness :
  goToNext (Some (detail_of 1)) three_items = NavigateTo (detail_path 4)
  ∧ goToPrevious (Some (detail_of 4)) three_items = NavigateTo (detail_path 1).
Proof.
  destruct (navigation_round_trip three_items 1 grass_poison fire (detail_of 1)
              (detail_of 4)) as (_ & Hnext & Hback & _);
    try reflexivity; [compute_done|].
  split; [exact Hnext|exact Hback].
Defined.

(** ** The dex number of the detail page *)

Lemma pad_length n c s : String.length (pad n c s) = (n + String.length s)%nat.
Proof. induction n as [|n IH]; simpl; [done|by rewrite IH]. Qed.

Lemma number_to_string_parse n :
  0 ≤ n →
  ∃ d, number_to_string n = NilEmpty.string_of_uint d
       ∧ NilEmpty.uint_of_string (NilEmpty.string_of_uint d) = Some d
       ∧ d ≠ Decimal.Nil
       ∧ Z.of_uint d = n.
Proof.
  intros Hn. unfold number_to_string.
  destruct n as [|p|p]; [|clear Hn|lia].
  - exists (Decimal.D0 Decimal.Nil). by repeat split.
  - exists (Pos.to_uint p). simpl.
    pose proof (DecimalPos.Unsigned.to_uint_nonnil p) as Hnonnil.
    split; [by destruct (Pos.to_uint p)|].
    split; [apply NilEmpty.usu|]. split; [done|].
    change (Z.of_uint (Pos.to_uint p)) with (Z.of_int (Z.to_int (Z.pos p))).
    apply DecimalZ.of_to.
Qed.

Lemma dex_parse_padded n d :
  d ≠ Decimal.Nil →
  NilEmpty.uint_of_string (NilEmpty.string_of_uint d) = Some d →
  Z.of_int <$> NilZero.int_of_string (pad n "0" (NilEmpty.string_of_uint d))
  = Some (Z.of_uint d).
Proof.
  intros Hnonnil Hparse.
  assert (Hpad : ∀ k, ∃ d',
            NilEmpty.uint_of_string (pad k "0" (NilEmpty.string_of_uint d)) = Some d'
            ∧ Z.of_uint d' = Z.of_uint d
            ∧ pad k "0" (NilEmpty.string_of_uint d) ≠ EmptyString
            ∧ ∀ rest, pad k "0" (NilEmpty.string_of_uint d) ≠ String "-" rest).
  { induction k as [|k (d' & Hd' & Hval & _ & _)]; simpl.
    - exists d. split; [done|]. split; [done|].
      destruct d; simpl; try done.
    - exists (Decimal.D0 d'). rewrite Hd'. by repeat split. }
  destruct (Hpad n) as (d' & Hd' & Hval & Hnonempty & Hsign).
  unfold NilZero.int_of_string.
  destruct (pad n "0" (NilEmpty.string_of_uint d)) as [|c rest] eqn:Hshape;
    [done|].
  destruct (Ascii.eqb_spec c "-") as [->|_]; [by destruct (Hsign rest)|].
  unfold NilZero.uint_of_string. rewrite Hd'. simpl. by rewrite Hval.
Qed.

Lemma pad_zeros n s :
  ∃ zeros, pad n "0" s = zeros ++ s
           ∧ String.length zeros = n
           ∧ ∀ i c, String.get i zeros = Some c → c = "0"%char.
Proof.
  induction n as [|n (zeros & Hpad & Hlength & Hzeros)]; simpl.
  - exists EmptyString. split; [done|]. split; [done|]. by intros [|i] c.
  - exists (String "0" zeros). rewrite Hpad. split; [done|].
    split; [by rewrite <- Hlength|].
    intros [|i] c; simpl; [by intros [= <-]|apply Hzeros].
Qed.

(** X20: for a safe integer id, the dex label is a hash sign followed by
    the decimal text of the id, filled up with zeros at the front to
    three characters and never cut: it has at least four characters, and
    for a non-negative id the number read back from it is the id, so
    different ids get different labels. *)
Theorem formatDexNumber_reads_back (id : Z) :
  safe_integer id →
  (4 ≤ String.length (formatDexNumber id))%nat
  ∧ String.length (formatDexNumber id)
    = S (Nat.max 3 (String.length (number_to_string id)))
  ∧ (∃ zeros,
       formatDexNumber id = String "#" (zeros ++ number_to_string id)
       ∧ String.length zeros = (3 - String.length (number_to_string id))%nat
       ∧ ∀ i c, String.get i zeros = Some c → c = "0"%char)
  ∧ (0 ≤ id → dex_number (formatDexNumber id) = Some id)
  ∧ (∀ other, safe_integer other → 0 ≤ id → 0 ≤ other → id ≠ other →
       formatDexNumber id ≠ formatDexNumber other).
Proof.
  intros _.
  assert (Hlen : String.length (formatDexNumber id)
                 = S (Nat.max 3 (String.length (number_to_string id)))).
  { unfold formatDexNumber, padStart. simpl. rewrite pad_length. lia. }
  assert (Hread : ∀ n, 0 ≤ n → dex_number (formatDexNumber n) = Some n).
  { intros n Hn. unfold formatDexNumber, padStart, dex_number.
    rewrite Ascii.eqb_refl.
    destruct (number_to_string_parse n Hn) as (d & -> & Hparse & Hnonnil & <-).
    by apply dex_parse_padded. }
  split; [lia|]. split; [exact Hlen|]. split; [|split; [apply Hread|]].
  - unfold formatDexNumber, padStart.
    destruct (pad_zeros (3 - String.length (number_to_string id))
                (number_to_string id)) as (zeros & -> & Hlength & Hzeros).
    by exists zeros.
  - intros other _ Hid Hother Hne Hsame.
    apply (f_equal dex_number) in Hsame. rewrite !Hread in Hsame by done.
    by injection Hsame.
Qed.

Lemma formatDexNumber_reads_back_witness :
  dex_number (formatDexNumber 25) = Some 25
  ∧ formatDexNumber 25 ≠ formatDexNumber 250.
Proof.
  assert (Hsafe : ∀ n, 0 ≤ n ≤ 1000 → safe_integer n).
  { intros n Hn. unfold safe_integer, MAX_SAFE_INTEGER. lia. }
  destruct (formatDexNumber_reads_back 25) as (_ & _ & _ & Hread & Hinj).
  { apply Hsafe. lia. }
  split; [apply Hread; lia|].
  apply Hinj; [apply Hsafe|..]; lia.
Defined.

Example formatDexNumber_samples :
  formatDexNumber 1 = "#001" ∧ formatDexNumber 25 = "#025"
  ∧ formatDexNumber 151 = "#151" ∧ formatDexNumber 1302 = "#1302"
  ∧ formatDexNumber (-5) = "#0-5".
Proof. repeat split. Qed.
